(** * ds_gamestate: EventStream and StateMachine (StateMachine.h)

    A shallow embedding of [EventStream], [GameState] and [StateMachine]
    and the properties of their specification.

    Conventions of the embedding.
    - Fixed-width integers are [Z] with the wrap-around written out
      ([to_uint32], [to_int], [to_size_t]).
    - The arena [_data] is seen as the source sees it: a [char*] into a
      byte-addressed memory.  An address is an offset relative to [_data];
      offsets [0 .. 4095] are the arena allocated by [new char[4096]],
      every other offset is memory next to it.  The source never compares
      an offset with the arena size, and neither does the model.
    - Where C++ leaves the behaviour undefined (a copy that leaves the
      arena, a subscript behind the vector's elements), the functions
      describe the executions that carry on; [add_in_bounds] and
      [subscript_in_bounds] say when the behaviour is defined.
    - Multi-byte fields are little endian (x86, x86-64, ARM), and the
      width of [size_t] is a parameter ([DataModel]). *)

From Stdlib Require Import ZArith List Lia Bool Sorted.
From coqutil Require Import Byte Word.LittleEndianList.
Import ListNotations.
Local Open Scope Z_scope.

(** ** Integer types *)

(** Conversion to [uint32_t]. *)
Definition to_uint32 (z : Z) : Z := z mod 2 ^ 32.

(** Conversion to [int] (32 bits, two's complement), as in
    [int lookup = _mappings[index]] and in the [const int] result of
    [getType]. *)
Definition to_int (z : Z) : Z := (z + 2 ^ 31) mod 2 ^ 32 - 2 ^ 31.

(** [a == b] where [a] is an [int] and [b] a [uint32_t]: the usual
    arithmetic conversions turn [a] into an unsigned value first. *)
Definition int_eq_uint32 (a b : Z) : bool := to_uint32 a =? b.

(** ** Platform *)

(** The two data models the header can be compiled for: [size_t] is four
    bytes wide (ILP32) or eight (LP64, and LLP64 alike). *)
Inductive DataModel := ILP32 | LP64.

Definition sizeof_size_t (dm : DataModel) : nat :=
  match dm with ILP32 => 4 | LP64 => 8 end.

(** What the source leaves to the platform: the data model, and the value
    that the unchecked [std::vector::operator[]] yields for a subscript at
    or past [size()] (whatever lies behind the vector's elements).  Such a
    subscript has undefined behaviour ([subscript_in_bounds] below says
    when it has not); [past_the_end] describes the executions in which the
    read returns a value, typically an offset left in the vector's storage,
    and says nothing of those in which it traps. *)
Record Platform := {
  data_model : DataModel;
  past_the_end : Z -> Z
}.

Definition to_size_t (pf : Platform) (z : Z) : Z :=
  z mod 2 ^ (8 * Z.of_nat (sizeof_size_t (data_model pf))).

(** ** Memory *)

(** The bytes at the offsets relative to [_data].  A store or load at an
    offset outside [0 .. 4095] is carried out like any other, as on a
    machine where the memory next to the arena is mapped; in C++ it has
    undefined behaviour and may as well end the program ([add_in_bounds]
    below says when the copies of an add call stay inside the arena). *)
Definition memory := Z -> byte.

(** [memcpy(dst, src, length src)] into the memory. *)
Definition memcpy_to (m : memory) (dst : Z) (src : list byte) : memory :=
  fun a =>
    if (dst <=? a) && (a <? dst + Z.of_nat (length src))
    then nth (Z.to_nat (a - dst)) src Byte.x00
    else m a.

(** The [n] bytes that [memcpy(p, src, n)] copies out of the memory. *)
Definition memcpy_from (m : memory) (src : Z) (n : Z) : list byte :=
  map (fun k => m (src + Z.of_nat k)) (seq 0 (Z.to_nat n)).

(** ** EventStream *)

Definition EVENT_HEADER_SIZE : Z := 12.

(** Size of the allocation behind [_data]. *)
Definition ARENA_SIZE : Z := 4096.

Record EventHeader := {
  id : Z;       (* uint32_t *)
  type : Z;     (* uint32_t *)
  size : Z      (* size_t *)
}.

(** The object representation of an [EventHeader]: [id] at offset 0,
    [type] at offset 4, [size] at offset 8; twelve bytes under ILP32,
    sixteen under LP64. *)
Definition header_bytes (pf : Platform) (h : EventHeader) : list byte :=
  le_split 4 (id h) ++ le_split 4 (type h)
    ++ le_split (sizeof_size_t (data_model pf)) (size h).

(** [((EventHeader* )data)->type] and [((EventHeader* )data)->size]. *)
Definition header_type (m : memory) (data : Z) : Z :=
  le_combine (memcpy_from m (data + 4) 4).

Definition header_size (pf : Platform) (m : memory) (data : Z) : Z :=
  le_combine (memcpy_from m (data + 8)
                (Z.of_nat (sizeof_size_t (data_model pf)))).

Definition header_id (m : memory) (data : Z) : Z :=
  le_combine (memcpy_from m data 4).

Record EventStream := {
  _data : memory;
  _mappings : list Z;       (* std::vector<uint32_t> *)
  _index : Z                (* uint32_t *)
}.

Definition reset (s : EventStream) : EventStream :=
  {| _data := _data s; _mappings := []; _index := 0 |}.

(** The constructor: [fresh] is the content of the memory that
    [new char[4096]] returns (not initialised by the source). *)
Definition new_EventStream (fresh : memory) : EventStream :=
  reset {| _data := fresh; _mappings := []; _index := 0 |}.

Definition num (s : EventStream) : Z :=
  to_uint32 (Z.of_nat (length (_mappings s))).

Definition addHeader (pf : Platform) (s : EventStream) (ty sz : Z)
  : EventStream :=
  let header :=
    {| id := to_uint32 (Z.of_nat (length (_mappings s)));
       type := ty;
       size := sz |} in
  let data := _index s in
  {| _data := memcpy_to (_data s) data
                (firstn (Z.to_nat EVENT_HEADER_SIZE) (header_bytes pf header));
     _mappings := _mappings s;
     _index := _index s |}.

(** [add(type, p, size)]: [p] stands for the [size] bytes at the pointer. *)
Definition add_data (pf : Platform) (s : EventStream) (ty : Z) (p : list byte)
  : EventStream :=
  let sz := Z.of_nat (length p) in
  let s1 := addHeader pf s ty sz in
  let data := _index s1 + EVENT_HEADER_SIZE in
  {| _data := memcpy_to (_data s1) data p;
     _mappings := _mappings s1 ++ [_index s1];
     _index := to_uint32 (to_size_t pf
                 (_index s1 + to_size_t pf (EVENT_HEADER_SIZE + sz))) |}.

(** [add(type)]. *)
Definition add (pf : Platform) (s : EventStream) (ty : Z) : EventStream :=
  let s1 := addHeader pf s ty 0 in
  {| _data := _data s1;
     _mappings := _mappings s1 ++ [_index s1];
     _index := to_uint32 (_index s1 + EVENT_HEADER_SIZE) |}.

(** [_mappings[index]], unchecked. *)
Definition vector_at (pf : Platform) (v : list Z) (index : Z) : Z :=
  match nth_error v (Z.to_nat index) with
  | Some x => x
  | None => past_the_end pf index
  end.

(** [get(index, p)]: the result and the bytes copied to [p]. *)
Definition get (pf : Platform) (s : EventStream) (index : Z)
  : bool * list byte :=
  let lookup := to_int (vector_at pf (_mappings s) index) in
  let data := lookup in
  let sz := header_size pf (_data s) data in
  (true, memcpy_from (_data s) (data + EVENT_HEADER_SIZE) sz).

Definition getType (pf : Platform) (s : EventStream) (index : Z) : Z :=
  let lookup := to_int (vector_at pf (_mappings s) index) in
  to_int (header_type (_data s) lookup).

(** The [for] loop of [containsType], [todo] iterations from [i] on. *)
Fixpoint containsType_loop (pf : Platform) (s : EventStream) (ty : Z)
  (i : Z) (todo : nat) : bool :=
  match todo with
  | O => false
  | S k =>
      if int_eq_uint32 (getType pf s (to_uint32 i)) ty then true
      else containsType_loop pf s ty (i + 1) k
  end.

Definition containsType (pf : Platform) (s : EventStream) (ty : Z) : bool :=
  containsType_loop pf s ty 0 (length (_mappings s)).

(** ** Sequences of add calls *)

Inductive AddCall :=
| Add (ty : Z)
| AddData (ty : Z) (p : list byte).

Definition call_type (c : AddCall) : Z :=
  match c with Add ty => ty | AddData ty _ => ty end.

Definition call_payload (c : AddCall) : list byte :=
  match c with Add _ => [] | AddData _ p => p end.

Definition do_call (pf : Platform) (s : EventStream) (c : AddCall)
  : EventStream :=
  match c with
  | Add ty => add pf s ty
  | AddData ty p => add_data pf s ty p
  end.

Definition run (pf : Platform) (s : EventStream) (cs : list AddCall)
  : EventStream :=
  fold_left (do_call pf) cs s.

(** Bytes a record takes in the arena: header and payload. *)
Definition record_bytes (c : AddCall) : Z :=
  EVENT_HEADER_SIZE + Z.of_nat (length (call_payload c)).

Definition stream_bytes (cs : list AddCall) : Z :=
  fold_right (fun c acc => record_bytes c + acc) 0 cs.

Definition within_capacity (cs : list AddCall) : Prop :=
  stream_bytes cs <= ARENA_SIZE.

(** ** Records in memory *)

(** The twelve bytes that [addHeader] copies for the [k]-th record. *)
Definition stored_header (pf : Platform) (k : Z) (c : AddCall) : list byte :=
  firstn (Z.to_nat EVENT_HEADER_SIZE)
    (header_bytes pf {| id := k; type := call_type c;
                        size := Z.of_nat (length (call_payload c)) |}).

(** What it means for the record of call [c], the [k]-th one, to be
    stored at offset [off]: the header bytes as copied by [addHeader],
    directly followed by the payload bytes. *)
Definition record_at (pf : Platform) (m : memory) (off : Z) (k : nat)
  (c : AddCall) : Prop :=
  memcpy_from m off EVENT_HEADER_SIZE = stored_header pf (Z.of_nat k) c /\
  memcpy_from m (off + EVENT_HEADER_SIZE)
    (Z.of_nat (length (call_payload c))) = call_payload c.

(** Where the records of the calls [cs] start when the first starts at
    [off]. *)
Fixpoint offsets (off : Z) (cs : list AddCall) : list Z :=
  match cs with
  | [] => []
  | c :: rest => off :: offsets (off + record_bytes c) rest
  end.

Fixpoint records_at (pf : Platform) (m : memory) (off : Z) (k : nat)
  (cs : list AddCall) : Prop :=
  match cs with
  | [] => True
  | c :: rest =>
      record_at pf m off k c /\ records_at pf m (off + record_bytes c) (S k) rest
  end.

(** The state of a stream in which exactly the calls [cs] were made since
    the last reset. *)
Record holds (pf : Platform) (s : EventStream) (cs : list AddCall) : Prop := {
  holds_mappings : _mappings s = offsets 0 cs;
  holds_index : _index s = stream_bytes cs;
  holds_records : records_at pf (_data s) 0 0 cs
}.

(** ** Name hashing *)

Definition FNV_Prime : Z := 0x01000193.
Definition FNV_Seed : Z := 0x811C9DC5.

(** [fnv1a(text, hash)]: [text] is the memory at the [const char*]; the
    loop stops at the first zero byte. *)
Fixpoint fnv1a (text : list byte) (hash : Z) : Z :=
  match text with
  | [] => hash
  | c :: ptr =>
      if byte.unsigned c =? 0 then hash
      else fnv1a ptr (to_uint32 (Z.lxor (byte.unsigned c) hash * FNV_Prime))
  end.

(** ** GameState *)

(** The base class: [D] holds what a derived class adds. *)
Record GameState (D : Type) := {
  _active : bool;
  _hash : Z;          (* uint32_t *)
  derived : D
}.
Arguments _active {D} _.
Arguments _hash {D} _.
Arguments derived {D} _.

Definition new_GameState {D : Type} (name : list byte) (d : D) : GameState D :=
  {| _active := false; _hash := fnv1a name FNV_Seed; derived := d |}.

Definition getHash {D : Type} (g : GameState D) : Z := _hash g.
Definition isActive {D : Type} (g : GameState D) : bool := _active g.

(** The pure virtual functions of derived classes that keep to
    themselves: each works on its own object ([this]); [v_tick] also on
    the stream it is handed.  [F] stands for [float].  Derived classes that
    reach other states, for instance through the machine's [activate] and
    [deactivate], are the subject of [Host] below. *)
Record Virtuals (F D : Type) := {
  v_tick : GameState D -> F -> EventStream -> Z * (GameState D * EventStream);
  v_render : GameState D -> GameState D;
  v_activate : GameState D -> GameState D;
  v_deactivate : GameState D -> GameState D
}.
Arguments v_tick {F D} _ _ _ _.
Arguments v_render {F D} _ _.
Arguments v_activate {F D} _ _.
Arguments v_deactivate {F D} _ _.

(** ** StateMachine *)

(** [_states] holds pointers: the objects live in a store of the host,
    indexed by address, and the same pointer may be registered twice. *)
Definition Store (D : Type) := nat -> GameState D.

Definition poke {D : Type} (h : Store D) (p : nat) (g : GameState D) : Store D :=
  fun q => if Nat.eqb q p then g else h q.

Record StateMachine := {
  _states : list nat;       (* std::vector<GameState*> *)
  _stream : EventStream
}.

Definition new_StateMachine (fresh : memory) : StateMachine :=
  {| _states := []; _stream := reset (new_EventStream fresh) |}.

Definition StateMachine_add (m : StateMachine) (state : nat) : StateMachine :=
  {| _states := _states m ++ [state]; _stream := _stream m |}.

(** The loop of [find] over the states from the current one on; [None]
    is the null pointer. *)
Fixpoint find_loop {D : Type} (h : Store D) (hash : Z) (states : list nat)
  : option nat :=
  match states with
  | [] => None
  | p :: rest =>
      if getHash (h p) =? hash then Some p else find_loop h hash rest
  end.

Definition find {D : Type} (h : Store D) (m : StateMachine) (name : list byte)
  : option nat :=
  find_loop h (fnv1a name FNV_Seed) (_states m).

Definition activate {F D : Type} (vt : Virtuals F D) (h : Store D)
  (m : StateMachine) (name : list byte) : Store D * StateMachine :=
  match find h m name with
  | Some state => (poke h state (v_activate vt (h state)), m)
  | None => (h, m)
  end.

Definition deactivate {F D : Type} (vt : Virtuals F D) (h : Store D)
  (m : StateMachine) (name : list byte) : Store D * StateMachine :=
  match find h m name with
  | Some state => (poke h state (v_deactivate vt (h state)), m)
  | None => (h, m)
  end.

(** One invocation of [GameState::tick] by the machine, as a spy would
    record it: the position in [_states], the pointer, the object as it was
    when called, and the arguments. *)
Record TickCall (F D : Type) := {
  tc_slot : nat;
  tc_state : nat;
  tc_self : GameState D;
  tc_dt : F;
  tc_stream : EventStream
}.
Arguments tc_slot {F D} _.
Arguments tc_state {F D} _.
Arguments tc_self {F D} _.
Arguments tc_dt {F D} _.
Arguments tc_stream {F D} _.

(** The loop of [tick] from position [i] on, with the calls it makes. *)
Fixpoint tick_loop {F D : Type} (vt : Virtuals F D) (dt : F)
  (states : list nat) (i : nat) (h : Store D) (stream : EventStream)
  : Store D * EventStream * list (TickCall F D) :=
  match states with
  | [] => (h, stream, [])
  | p :: rest =>
      if isActive (h p) then
        let call := {| tc_slot := i; tc_state := p; tc_self := h p;
                       tc_dt := dt; tc_stream := stream |} in
        let '(_, (g, stream')) := v_tick vt (h p) dt stream in
        let '(h', stream'', calls) :=
          tick_loop vt dt rest (S i) (poke h p g) stream' in
        (h', stream'', call :: calls)
      else tick_loop vt dt rest (S i) h stream
  end.

Definition tick {F D : Type} (vt : Virtuals F D) (h : Store D)
  (m : StateMachine) (dt : F)
  : Store D * StateMachine * list (TickCall F D) :=
  let stream := reset (_stream m) in
  let '(h', stream', calls) := tick_loop vt dt (_states m) 0%nat h stream in
  (h', {| _states := _states m; _stream := stream' |}, calls).

Fixpoint render_loop {F D : Type} (vt : Virtuals F D) (states : list nat)
  (h : Store D) : Store D :=
  match states with
  | [] => h
  | p :: rest =>
      if isActive (h p) then render_loop vt rest (poke h p (v_render vt (h p)))
      else render_loop vt rest h
  end.

Definition render {F D : Type} (vt : Virtuals F D) (h : Store D)
  (m : StateMachine) : Store D :=
  render_loop vt (_states m) h.

Definition hasEvents (m : StateMachine) : bool := 0 <? num (_stream m).
Definition numEvents (m : StateMachine) : Z := num (_stream m).
Definition getEvent (pf : Platform) (m : StateMachine) (index : Z)
  : bool * list byte := get pf (_stream m) index.
Definition getEventType (pf : Platform) (m : StateMachine) (index : Z) : Z :=
  getType pf (_stream m) index.
Definition containsEventType (pf : Platform) (m : StateMachine) (ty : Z)
  : bool := containsType pf (_stream m) ty.

(** The stream as the tick call [c] left it. *)
Definition stream_after {F D : Type} (vt : Virtuals F D) (c : TickCall F D)
  : EventStream :=
  snd (snd (v_tick vt (tc_self c) (tc_dt c) (tc_stream c))).

(** The calls work on one stream: the first is handed [stream], each
    further one the stream as the call before left it, and [final] is what
    the last one left. *)
Fixpoint handed_on {F D : Type} (vt : Virtuals F D) (stream : EventStream)
  (calls : list (TickCall F D)) (final : EventStream) : Prop :=
  match calls with
  | [] => final = stream
  | c :: rest =>
      tc_stream c = stream /\ handed_on vt (stream_after vt c) rest final
  end.

(** ** Concrete platforms and memories used in the examples *)

(** Behind the vector's elements a subscript finds 0 here, as it does at
    the first position after [clear()] when the first offset is still in
    the vector's storage. *)
Definition ilp32 : Platform :=
  {| data_model := ILP32; past_the_end := fun _ => 0 |}.
Definition lp64 : Platform :=
  {| data_model := LP64; past_the_end := fun _ => 0 |}.

(** A freshly mapped, zero-filled memory. *)
Definition zeroed : memory := fun _ => Byte.x00.

(** ** A machine with spies *)

(** States that count their tick calls and add one event of type 7 with
    the payload [{1, 2}] in each; [activate] and [deactivate] set the
    flag. *)
Definition spy : Virtuals Z nat := {|
  v_tick := fun g dt stream =>
    (0, ({| _active := _active g; _hash := _hash g;
            derived := S (derived g) |},
         add_data ilp32 stream 7 [Byte.x01; Byte.x02]));
  v_render := fun g => g;
  v_activate := fun g =>
    {| _active := true; _hash := _hash g; derived := derived g |};
  v_deactivate := fun g =>
    {| _active := false; _hash := _hash g; derived := derived g |}
|}.

(** "Intro" and "Outro" as C strings. *)
Definition Intro : list byte :=
  [Byte.x49; Byte.x6e; Byte.x74; Byte.x72; Byte.x6f; Byte.x00].
Definition Outro : list byte :=
  [Byte.x4f; Byte.x75; Byte.x74; Byte.x72; Byte.x6f; Byte.x00].

(** Two objects named "Intro" at the addresses 0 and 1, objects named
    "Outro" elsewhere. *)
Definition spies : Store nat :=
  fun p => if (p <=? 1)%nat then new_GameState Intro 0%nat
           else new_GameState Outro 0%nat.

Definition two_intros : StateMachine :=
  StateMachine_add (StateMachine_add (new_StateMachine zeroed) 0%nat) 1%nat.

(** "Intro" at address 0 and "Outro" at address 2, registered in this
    order. *)
Definition intro_outro : StateMachine :=
  StateMachine_add (StateMachine_add (new_StateMachine zeroed) 0%nat) 2%nat.

(** ** Undefined behaviour *)

(** The rules of C++ that the functions above do not enforce, as the
    source does not. *)




(** ** StateMachine with states that reach other states *)

(** The pure virtual functions as code of the host application: the
    function of the state at the address [this] may change every state
    object, for instance by calling the machine's [activate] and
    [deactivate], and [host_tick] also the stream it is handed.  The states
    are registered before the frame loop starts: no function registers a
    state. *)
Record Host (F D : Type) := {
  host_tick : nat -> F -> Store D -> EventStream
              -> Z * (Store D * EventStream);
  host_render : nat -> Store D -> Store D;
  host_activate : nat -> Store D -> Store D;
  host_deactivate : nat -> Store D -> Store D
}.
Arguments host_tick {F D} _ _ _ _ _.
Arguments host_render {F D} _ _ _.
Arguments host_activate {F D} _ _ _.
Arguments host_deactivate {F D} _ _ _.

(** One invocation of [GameState::tick] by the machine: the position in
    [_states], the pointer, the state objects as they were when the call
    was made, and the arguments. *)
Record HostCall (F D : Type) := {
  hc_slot : nat;
  hc_state : nat;
  hc_store : Store D;
  hc_dt : F;
  hc_stream : EventStream
}.
Arguments hc_slot {F D} _.
Arguments hc_state {F D} _.
Arguments hc_store {F D} _.
Arguments hc_dt {F D} _.
Arguments hc_stream {F D} _.

(** The loop of [tick] from position [i] on: the flag of a state is read
    when the loop reaches its position. *)
Fixpoint tick_loop_host {F D : Type} (hv : Host F D) (dt : F)
  (states : list nat) (i : nat) (h : Store D) (stream : EventStream)
  : Store D * EventStream * list (HostCall F D) :=
  match states with
  | [] => (h, stream, [])
  | p :: rest =>
      if isActive (h p) then
        let call := {| hc_slot := i; hc_state := p; hc_store := h;
                       hc_dt := dt; hc_stream := stream |} in
        let '(_, (h1, stream1)) := host_tick hv p dt h stream in
        let '(h', stream', calls) :=
          tick_loop_host hv dt rest (S i) h1 stream1 in
        (h', stream', call :: calls)
      else tick_loop_host hv dt rest (S i) h stream
  end.

Definition tick_host {F D : Type} (hv : Host F D) (h : Store D)
  (m : StateMachine) (dt : F)
  : Store D * StateMachine * list (HostCall F D) :=
  let stream := reset (_stream m) in
  let '(h', stream', calls) :=
    tick_loop_host hv dt (_states m) 0%nat h stream in
  (h', {| _states := _states m; _stream := stream' |}, calls).

Fixpoint render_loop_host {F D : Type} (hv : Host F D) (states : list nat)
  (h : Store D) : Store D :=
  match states with
  | [] => h
  | p :: rest =>
      if isActive (h p) then render_loop_host hv rest (host_render hv p h)
      else render_loop_host hv rest h
  end.

Definition render_host {F D : Type} (hv : Host F D) (h : Store D)
  (m : StateMachine) : Store D :=
  render_loop_host hv (_states m) h.

Definition activate_host {F D : Type} (hv : Host F D) (h : Store D)
  (m : StateMachine) (name : list byte) : Store D * StateMachine :=
  match find h m name with
  | Some state => (host_activate hv state h, m)
  | None => (h, m)
  end.

Definition deactivate_host {F D : Type} (hv : Host F D) (h : Store D)
  (m : StateMachine) (name : list byte) : Store D * StateMachine :=
  match find h m name with
  | Some state => (host_deactivate hv state h, m)
  | None => (h, m)
  end.

(** The state objects and the stream as the tick call [c] left them. *)
Definition hc_store_after {F D : Type} (hv : Host F D) (c : HostCall F D)
  : Store D :=
  fst (snd (host_tick hv (hc_state c) (hc_dt c) (hc_store c) (hc_stream c))).

Definition hc_stream_after {F D : Type} (hv : Host F D) (c : HostCall F D)
  : EventStream :=
  snd (snd (host_tick hv (hc_state c) (hc_dt c) (hc_store c) (hc_stream c))).

(** The calls follow one another on the same objects and the same
    stream: the first is made on [h] and [stream], each further one on what
    the call before left, and [h'] and [stream'] are what the last one
    left. *)
Fixpoint chained {F D : Type} (hv : Host F D) (h : Store D)
  (stream : EventStream) (calls : list (HostCall F D)) (h' : Store D)
  (stream' : EventStream) : Prop :=
  match calls with
  | [] => h' = h /\ stream' = stream
  | c :: rest =>
      hc_store c = h /\ hc_stream c = stream /\
      chained hv (hc_store_after hv c) (hc_stream_after hv c) rest h' stream'
  end.

(** The state objects when the loop reaches position [i]: as the last
    call at an earlier position left them, or [h] when there is none. *)
Definition store_when_reached {F D : Type} (hv : Host F D) (h : Store D)
  (calls : list (HostCall F D)) (i : nat) : Store D :=
  fold_left
    (fun acc c => if (hc_slot c <? i)%nat then hc_store_after hv c else acc)
    calls h.

(** Derived classes that keep to themselves, as code of the host. *)
Definition confined {F D : Type} (vt : Virtuals F D) : Host F D := {|
  host_tick := fun this dt h stream =>
    let '(ret, (g, stream')) := v_tick vt (h this) dt stream in
    (ret, (poke h this g, stream'));
  host_render := fun this h => poke h this (v_render vt (h this));
  host_activate := fun this h => poke h this (v_activate vt (h this));
  host_deactivate := fun this h => poke h this (v_deactivate vt (h this))
|}.

(** The spies again, but the one at address 0 activates the state at
    address 2 in its tick, as a call of the machine's [activate] with the
    name of that state does from there. *)
Definition meddler : Host Z nat := {|
  host_tick := fun this dt h stream =>
    let h1 := poke h this (fst (snd (v_tick spy (h this) dt stream))) in
    let h2 := if (this =? 0)%nat
              then poke h1 2%nat (v_activate spy (h1 2%nat)) else h1 in
    (0, (h2, snd (snd (v_tick spy (h this) dt stream))));
  host_render := fun this h => h;
  host_activate := fun this h => poke h this (v_activate spy (h this));
  host_deactivate := fun this h => poke h this (v_deactivate spy (h this))
|}.

(** * Integer conversions *)

Lemma to_uint32_small z : 0 <= z < 2 ^ 32 -> to_uint32 z = z.
Proof. intros H. unfold to_uint32. apply Z.mod_small. exact H. Qed.

Lemma to_int_small z : 0 <= z < 2 ^ 31 -> to_int z = z.
Proof. intros H. unfold to_int. rewrite Z.mod_small; lia. Qed.

Lemma to_int_to_uint32 z : to_int (to_uint32 z) = to_int z.
Proof.
  unfold to_int, to_uint32. rewrite Zplus_mod_idemp_l. reflexivity.
Qed.

Lemma to_uint32_to_int z : to_uint32 (to_int z) = to_uint32 z.
Proof.
  unfold to_int, to_uint32. rewrite Zminus_mod_idemp_l. f_equal. lia.
Qed.

Lemma to_size_t_small pf z : 0 <= z < 2 ^ 32 -> to_size_t pf z = z.
Proof.
  intros H. unfold to_size_t. apply Z.mod_small.
  destruct (data_model pf); cbn; lia.
Qed.

(** The source's [==] between an [int] and a [uint32_t] holds exactly
    when the [int] is the [uint32_t] converted to [int]. *)
Lemma int_eq_uint32_true a t :
  - 2 ^ 31 <= a < 2 ^ 31 -> 0 <= t < 2 ^ 32 ->
  (int_eq_uint32 a t = true <-> a = to_int t).
Proof.
  intros Ha Ht. unfold int_eq_uint32. rewrite Z.eqb_eq. split.
  - intros <-. rewrite to_int_to_uint32. unfold to_int.
    rewrite Z.mod_small; lia.
  - intros ->. rewrite to_uint32_to_int. apply to_uint32_small. exact Ht.
Qed.

Lemma land_shiftl_32 a b : 0 <= a < 2 ^ 32 -> Z.land a (Z.shiftl b 32) = 0.
Proof.
  intros H. apply Z.bits_inj'. intros n Hn.
  rewrite Z.land_spec, Z.bits_0.
  destruct (Z.lt_ge_cases n 32) as [Hlt|Hge].
  - rewrite Z.shiftl_spec_low by exact Hlt. apply andb_false_r.
  - replace (Z.testbit a n) with false; [reflexivity|].
    symmetry. destruct (Z.eq_dec a 0) as [->|Hne]; [apply Z.bits_0|].
    apply Z.bits_above_log2; [lia|].
    apply Z.lt_le_trans with 32; [|exact Hge].
    apply Z.log2_lt_pow2; lia.
Qed.

Lemma lor_shiftl_32 a b :
  0 <= a < 2 ^ 32 -> Z.lor a (Z.shiftl b 32) = a + 2 ^ 32 * b.
Proof.
  intros H. pose proof (land_shiftl_32 a b H) as Hl.
  rewrite <- Z.lxor_lor by exact Hl.
  rewrite <- Z.add_nocarry_lxor by exact Hl.
  rewrite Z.shiftl_mul_pow2; lia.
Qed.

(** * Memory *)

Lemma memcpy_from_length m a n : length (memcpy_from m a n) = Z.to_nat n.
Proof. unfold memcpy_from. rewrite length_map, length_seq. reflexivity. Qed.

Lemma memcpy_to_outside m dst src a :
  a < dst \/ dst + Z.of_nat (length src) <= a ->
  memcpy_to m dst src a = m a.
Proof.
  intros H. unfold memcpy_to.
  destruct (dst <=? a) eqn:E1; destruct (a <? dst + Z.of_nat (length src)) eqn:E2;
    cbn; try reflexivity.
  apply Z.leb_le in E1. apply Z.ltb_lt in E2. lia.
Qed.

Lemma memcpy_to_inside m dst src (k : nat) :
  (k < length src)%nat ->
  memcpy_to m dst src (dst + Z.of_nat k) = nth k src Byte.x00.
Proof.
  intros H. unfold memcpy_to.
  replace (dst <=? dst + Z.of_nat k) with true by (symmetry; apply Z.leb_le; lia).
  replace (dst + Z.of_nat k <? dst + Z.of_nat (length src)) with true
    by (symmetry; apply Z.ltb_lt; lia).
  cbn. f_equal. lia.
Qed.

(** Reading depends on the bytes in the range only. *)
Lemma memcpy_from_ext m m' a n :
  (forall x, a <= x < a + n -> m' x = m x) ->
  memcpy_from m' a n = memcpy_from m a n.
Proof.
  intros H. unfold memcpy_from. apply map_ext_in.
  intros k Hk. apply in_seq in Hk. apply H. lia.
Qed.

Lemma nth_map_seq {A : Type} (f : nat -> A) (n k : nat) (d : A) :
  (k < n)%nat -> nth k (map f (seq 0 n)) d = f k.
Proof.
  intros H.
  rewrite nth_indep with (d' := f 0%nat) by (rewrite length_map, length_seq; exact H).
  rewrite map_nth, seq_nth by exact H. reflexivity.
Qed.

Lemma memcpy_from_to_same m a bs :
  memcpy_from (memcpy_to m a bs) a (Z.of_nat (length bs)) = bs.
Proof.
  unfold memcpy_from. rewrite Nat2Z.id.
  apply nth_ext with (d := Byte.x00) (d' := Byte.x00).
  - rewrite length_map, length_seq. reflexivity.
  - intros k Hk. rewrite length_map, length_seq in Hk.
    rewrite nth_map_seq by exact Hk.
    apply memcpy_to_inside. exact Hk.
Qed.

Lemma map_seq_from {A : Type} (f : nat -> A) (n a : nat) :
  map f (seq a n) = map (fun k => f (a + k)%nat) (seq 0 n).
Proof.
  revert a. induction n as [|n IH]; intros a; [reflexivity|].
  cbn [seq map]. rewrite Nat.add_0_r. f_equal.
  rewrite IH. rewrite <- (seq_shift n 0), map_map.
  apply map_ext. intros k. f_equal. lia.
Qed.

Lemma memcpy_from_split m a n1 n2 :
  0 <= n1 -> 0 <= n2 ->
  memcpy_from m a (n1 + n2) = memcpy_from m a n1 ++ memcpy_from m (a + n1) n2.
Proof.
  intros H1 H2. unfold memcpy_from.
  rewrite Z2Nat.inj_add by assumption.
  rewrite seq_app, map_app. f_equal.
  cbn [Nat.add]. rewrite map_seq_from.
  apply map_ext. intros k. f_equal. lia.
Qed.

(** * The header as stored *)

Lemma firstn_le_split (n m : nat) z :
  (n <= m)%nat -> firstn n (le_split m z) = le_split n z.
Proof.
  revert m z. induction n as [|n IH]; intros m z H; [reflexivity|].
  destruct m as [|m]; [lia|].
  change (le_split (S m) z) with (byte.of_Z z :: le_split m (Z.shiftr z 8)).
  change (le_split (S n) z) with (byte.of_Z z :: le_split n (Z.shiftr z 8)).
  cbn [firstn]. f_equal. apply IH. lia.
Qed.

Lemma firstn_app_exact {A : Type} (n1 n : nat) (l1 l2 : list A) :
  length l1 = n1 -> firstn (n1 + n) (l1 ++ l2) = l1 ++ firstn n l2.
Proof. intros <-. apply firstn_app_2. Qed.

(** Under either data model they are the id, the type and the low four
    bytes of the size. *)
Lemma stored_header_eq pf k c :
  stored_header pf k c =
  le_split 4 k ++ le_split 4 (call_type c)
    ++ le_split 4 (Z.of_nat (length (call_payload c))).
Proof.
  unfold stored_header, header_bytes. cbn [id type size].
  change (Z.to_nat EVENT_HEADER_SIZE) with (4 + (4 + 4))%nat.
  rewrite !firstn_app_exact by apply length_le_split.
  do 2 f_equal.
  apply firstn_le_split. destruct (data_model pf); cbn; lia.
Qed.

Lemma stored_header_length pf k c :
  length (stored_header pf k c) = 12%nat.
Proof.
  rewrite stored_header_eq. rewrite !length_app, !length_le_split. reflexivity.
Qed.

(** * One add call *)

Lemma do_call_mappings pf s c :
  _mappings (do_call pf s c) = _mappings s ++ [_index s].
Proof. destruct c; reflexivity. Qed.

Lemma do_call_index pf s c :
  0 <= _index s -> _index s + record_bytes c < 2 ^ 32 ->
  _index (do_call pf s c) = _index s + record_bytes c.
Proof.
  intros H0 H. unfold record_bytes, EVENT_HEADER_SIZE in *.
  destruct c as [ty|ty p]; cbn [do_call add add_data addHeader _index call_payload length] in *.
  - unfold EVENT_HEADER_SIZE. rewrite to_uint32_small; lia.
  - unfold EVENT_HEADER_SIZE.
    rewrite (to_size_t_small pf (12 + _)) by lia.
    rewrite to_size_t_small by lia.
    rewrite to_uint32_small; lia.
Qed.

Lemma do_call_data pf s c a :
  _data (do_call pf s c) a =
  memcpy_to
    (memcpy_to (_data s) (_index s)
       (stored_header pf (to_uint32 (Z.of_nat (length (_mappings s)))) c))
    (_index s + EVENT_HEADER_SIZE) (call_payload c) a.
Proof.
  destruct c as [ty|ty p]; cbn [do_call add add_data addHeader _data _index
                                 _mappings call_payload].
  - rewrite (memcpy_to_outside _ _ []) by (cbn; lia). reflexivity.
  - reflexivity.
Qed.

(** An add call writes at and after the cursor only. *)
Lemma do_call_frame pf s c a :
  a < _index s -> _data (do_call pf s c) a = _data s a.
Proof.
  intros H. rewrite do_call_data.
  rewrite !memcpy_to_outside; [reflexivity| |]; unfold EVENT_HEADER_SIZE; lia.
Qed.

Lemma record_at_ext pf m m' off k c :
  (forall x, off <= x < off + record_bytes c -> m' x = m x) ->
  record_at pf m off k c -> record_at pf m' off k c.
Proof.
  intros H [H1 H2]. unfold record_bytes, EVENT_HEADER_SIZE in *. split.
  - rewrite <- H1. apply memcpy_from_ext. intros x Hx. apply H. lia.
  - rewrite <- H2 at 2. apply memcpy_from_ext. intros x Hx. apply H. lia.
Qed.

(** Header and payload of the new record as they are found in memory
    after the call, wherever the cursor was. *)
Lemma do_call_stored pf s c :
  memcpy_from (_data (do_call pf s c)) (_index s) EVENT_HEADER_SIZE
    = stored_header pf (num s) c /\
  memcpy_from (_data (do_call pf s c)) (_index s + EVENT_HEADER_SIZE)
    (Z.of_nat (length (call_payload c))) = call_payload c.
Proof.
  split.
  - unfold num. set (hd := stored_header pf _ c).
    rewrite memcpy_from_ext with (m := memcpy_to (_data s) (_index s) hd).
    + replace EVENT_HEADER_SIZE with (Z.of_nat (length hd))
        by (unfold hd; rewrite stored_header_length; reflexivity).
      apply memcpy_from_to_same.
    + intros x Hx. rewrite do_call_data. fold hd.
      apply memcpy_to_outside. lia.
  - rewrite memcpy_from_ext
      with (m := memcpy_to
                   (memcpy_to (_data s) (_index s)
                      (stored_header pf
                         (to_uint32 (Z.of_nat (length (_mappings s)))) c))
                   (_index s + EVENT_HEADER_SIZE) (call_payload c)).
    + apply memcpy_from_to_same.
    + intros x _. apply do_call_data.
Qed.

Lemma do_call_record_at pf s c :
  Z.of_nat (length (_mappings s)) < 2 ^ 32 ->
  record_at pf (_data (do_call pf s c)) (_index s) (length (_mappings s)) c.
Proof.
  intros Hn. destruct (do_call_stored pf s c) as [H1 H2].
  unfold num in H1. rewrite to_uint32_small in H1 by lia.
  split; assumption.
Qed.

(** * Sequences of add calls *)

Lemma record_bytes_pos c : EVENT_HEADER_SIZE <= record_bytes c.
Proof. unfold record_bytes. lia. Qed.

Lemma stream_bytes_app cs cs' :
  stream_bytes (cs ++ cs') = stream_bytes cs + stream_bytes cs'.
Proof.
  induction cs as [|c cs IH]; cbn [app stream_bytes fold_right]; [reflexivity|].
  fold (stream_bytes (cs ++ cs')). fold (stream_bytes cs). lia.
Qed.

Lemma stream_bytes_cons c cs :
  stream_bytes (c :: cs) = record_bytes c + stream_bytes cs.
Proof. reflexivity. Qed.

Lemma stream_bytes_length cs :
  EVENT_HEADER_SIZE * Z.of_nat (length cs) <= stream_bytes cs.
Proof.
  induction cs as [|c cs IH]; [cbn; lia|].
  rewrite stream_bytes_cons. cbn [length].
  pose proof (record_bytes_pos c). lia.
Qed.

Lemma stream_bytes_nonneg cs : 0 <= stream_bytes cs.
Proof.
  pose proof (stream_bytes_length cs). unfold EVENT_HEADER_SIZE in *. lia.
Qed.

Lemma offsets_length off cs : length (offsets off cs) = length cs.
Proof.
  revert off. induction cs as [|c cs IH]; intros off; cbn; [reflexivity|].
  f_equal. apply IH.
Qed.

Lemma offsets_snoc off cs c :
  offsets off (cs ++ [c]) = offsets off cs ++ [off + stream_bytes cs].
Proof.
  revert off. induction cs as [|c' cs IH]; intros off; cbn [app offsets].
  - cbn. f_equal. lia.
  - rewrite IH, stream_bytes_cons. cbn [app]. do 3 f_equal. lia.
Qed.

Lemma records_at_snoc pf m off k cs c :
  records_at pf m off k cs ->
  record_at pf m (off + stream_bytes cs) (k + length cs) c ->
  records_at pf m off k (cs ++ [c]).
Proof.
  revert off k. induction cs as [|c' cs IH]; intros off k Hcs Hc; cbn [app records_at].
  - split; [|exact I]. cbn in Hc. rewrite Z.add_0_r, Nat.add_0_r in Hc. exact Hc.
  - destruct Hcs as [H1 H2]. split; [exact H1|].
    apply IH; [exact H2|].
    rewrite stream_bytes_cons in Hc. cbn [length] in Hc.
    replace (off + record_bytes c' + stream_bytes cs)
      with (off + (record_bytes c' + stream_bytes cs)) by lia.
    replace (S k + length cs)%nat with (k + S (length cs))%nat by lia.
    exact Hc.
Qed.

Lemma records_at_ext pf m m' off k cs :
  (forall x, off <= x < off + stream_bytes cs -> m' x = m x) ->
  records_at pf m off k cs -> records_at pf m' off k cs.
Proof.
  revert off k. induction cs as [|c cs IH]; intros off k H Hcs; [exact I|].
  destruct Hcs as [H1 H2]. rewrite stream_bytes_cons in H.
  pose proof (stream_bytes_nonneg cs). pose proof (record_bytes_pos c).
  unfold EVENT_HEADER_SIZE in *.
  split.
  - apply record_at_ext with (m := m); [|exact H1].
    intros x Hx. apply H. lia.
  - apply IH; [|exact H2]. intros x Hx. apply H. lia.
Qed.

Lemma run_snoc pf s cs c : run pf s (cs ++ [c]) = do_call pf (run pf s cs) c.
Proof. unfold run. rewrite fold_left_app. reflexivity. Qed.

Lemma holds_reset pf s : holds pf (reset s) [].
Proof. split; [reflexivity|reflexivity|exact I]. Qed.

(** One more call within the range of the cursor keeps the description. *)
Lemma holds_do_call pf s cs c :
  stream_bytes (cs ++ [c]) < 2 ^ 32 ->
  holds pf s cs -> holds pf (do_call pf s c) (cs ++ [c]).
Proof.
  intros Hcap [Hm Hi Hr].
  pose proof (stream_bytes_nonneg cs) as Hnn.
  pose proof (stream_bytes_length cs) as Hlen.
  rewrite stream_bytes_app, stream_bytes_cons in Hcap. cbn [stream_bytes fold_right] in Hcap.
  pose proof (record_bytes_pos c) as Hc.
  unfold EVENT_HEADER_SIZE in *.
  assert (Hlm : length (_mappings s) = length cs)
    by (rewrite Hm; apply offsets_length).
  split.
  - rewrite do_call_mappings, offsets_snoc, Hm, Hi. reflexivity.
  - rewrite do_call_index by lia.
    rewrite stream_bytes_app, stream_bytes_cons, Hi.
    cbn [stream_bytes fold_right]. lia.
  - apply records_at_snoc.
    + apply records_at_ext with (m := _data s); [|exact Hr].
      intros x Hx. apply do_call_frame. lia.
    + rewrite Z.add_0_l, Nat.add_0_l, <- Hi, <- Hlm.
      apply do_call_record_at. lia.
Qed.

Lemma stream_bytes_prefix cs c :
  stream_bytes cs <= stream_bytes (cs ++ [c]).
Proof.
  rewrite stream_bytes_app, stream_bytes_cons.
  pose proof (record_bytes_pos c). unfold EVENT_HEADER_SIZE in *.
  cbn [stream_bytes fold_right]. lia.
Qed.

Lemma holds_run pf s cs :
  stream_bytes cs < 2 ^ 32 -> holds pf (run pf (reset s) cs) cs.
Proof.
  induction cs as [|c cs IH] using rev_ind; intros Hcap.
  - apply holds_reset.
  - rewrite run_snoc. apply holds_do_call; [exact Hcap|].
    apply IH. pose proof (stream_bytes_prefix cs c). lia.
Qed.

(** * Reading records back *)

Lemma app_inv_length {A : Type} (a a' b b' : list A) :
  length a = length a' -> a ++ b = a' ++ b' -> a = a' /\ b = b'.
Proof.
  revert a'. induction a as [|x a IH]; intros [|x' a'] Hl H; cbn in *;
    try discriminate.
  - split; [reflexivity|exact H].
  - injection H as -> H. injection Hl as Hl.
    destruct (IH a' Hl H) as [-> ->]. split; reflexivity.
Qed.

(** The three fields of a stored header, as bytes. *)
Lemma record_at_fields pf m off k c :
  record_at pf m off k c ->
  memcpy_from m off 4 = le_split 4 (Z.of_nat k) /\
  memcpy_from m (off + 4) 4 = le_split 4 (call_type c) /\
  memcpy_from m (off + 8) 4 = le_split 4 (Z.of_nat (length (call_payload c))).
Proof.
  intros [H _]. rewrite stored_header_eq in H.
  change EVENT_HEADER_SIZE with (4 + (4 + 4)) in H.
  rewrite memcpy_from_split in H by lia.
  rewrite (memcpy_from_split m (off + 4)) in H by lia.
  apply app_inv_length in H;
    [|rewrite memcpy_from_length, length_le_split; reflexivity].
  destruct H as [H1 H].
  apply app_inv_length in H;
    [|rewrite memcpy_from_length, length_le_split; reflexivity].
  destruct H as [H2 H3].
  replace (off + 4 + 4) with (off + 8) in H3 by lia.
  auto.
Qed.

Lemma le_combine_split_4 z : le_combine (le_split 4 z) = to_uint32 z.
Proof. rewrite le_combine_split. reflexivity. Qed.

Lemma record_at_type pf m off k c :
  record_at pf m off k c -> header_type m off = to_uint32 (call_type c).
Proof.
  intros H. apply record_at_fields in H. destruct H as (_ & H & _).
  unfold header_type. rewrite H. apply le_combine_split_4.
Qed.

Lemma record_at_id pf m off k c :
  record_at pf m off k c -> header_id m off = to_uint32 (Z.of_nat k).
Proof.
  intros H. apply record_at_fields in H. destruct H as (H & _).
  unfold header_id. rewrite H. apply le_combine_split_4.
Qed.

(** With a four-byte [size_t] the size field is the payload length. *)
Lemma record_at_size_ilp32 pf m off k c :
  data_model pf = ILP32 ->
  Z.of_nat (length (call_payload c)) < 2 ^ 32 ->
  record_at pf m off k c ->
  header_size pf m off = Z.of_nat (length (call_payload c)).
Proof.
  intros Hdm Hlen H. apply record_at_fields in H. destruct H as (_ & _ & H).
  unfold header_size. rewrite Hdm. cbn [sizeof_size_t].
  change (Z.of_nat 4) with 4. rewrite H, le_combine_split_4.
  apply to_uint32_small. lia.
Qed.

(** With an eight-byte [size_t] its upper half is read from the four
    bytes behind the twelve stored ones. *)
Lemma record_at_size_lp64 pf m off k c :
  data_model pf = LP64 ->
  Z.of_nat (length (call_payload c)) < 2 ^ 32 ->
  record_at pf m off k c ->
  header_size pf m off =
  Z.of_nat (length (call_payload c))
  + 2 ^ 32 * le_combine (memcpy_from m (off + EVENT_HEADER_SIZE) 4).
Proof.
  intros Hdm Hlen H. apply record_at_fields in H. destruct H as (_ & _ & H).
  unfold header_size. rewrite Hdm. cbn [sizeof_size_t].
  change (Z.of_nat 8) with (4 + 4).
  rewrite memcpy_from_split by lia. rewrite H.
  rewrite le_combine_app, length_le_split, le_combine_split_4.
  rewrite to_uint32_small by lia.
  change (Z.of_nat 4 * 8) with 32.
  rewrite lor_shiftl_32 by lia.
  unfold EVENT_HEADER_SIZE. do 4 f_equal. lia.
Qed.

Lemma offsets_nth off cs i c :
  nth_error cs i = Some c ->
  nth_error (offsets off cs) i = Some (off + stream_bytes (firstn i cs)).
Proof.
  revert off i. induction cs as [|c' cs IH]; intros off [|i] H; cbn in H;
    try discriminate.
  - cbn. f_equal. lia.
  - cbn [offsets nth_error firstn]. rewrite (IH _ _ H), stream_bytes_cons.
    f_equal. lia.
Qed.

Lemma records_at_nth pf m off k cs i c :
  records_at pf m off k cs ->
  nth_error cs i = Some c ->
  record_at pf m (off + stream_bytes (firstn i cs)) (k + i) c.
Proof.
  revert off k i. induction cs as [|c' cs IH]; intros off k [|i] Hr H;
    cbn in H; try discriminate.
  - injection H as ->. destruct Hr as [Hr _].
    cbn [firstn stream_bytes fold_right]. rewrite Z.add_0_r, Nat.add_0_r.
    exact Hr.
  - destruct Hr as [_ Hr]. cbn [firstn]. rewrite stream_bytes_cons.
    replace (off + (record_bytes c' + stream_bytes (firstn i cs)))
      with (off + record_bytes c' + stream_bytes (firstn i cs)) by lia.
    replace (k + S i)%nat with (S k + i)%nat by lia.
    apply IH; assumption.
Qed.

Lemma stream_bytes_nth cs i c :
  nth_error cs i = Some c ->
  stream_bytes (firstn i cs) + record_bytes c <= stream_bytes cs.
Proof.
  revert i. induction cs as [|c' cs IH]; intros [|i] H; cbn in H;
    try discriminate.
  - injection H as ->. cbn [firstn]. rewrite stream_bytes_cons.
    pose proof (stream_bytes_nonneg cs). cbn [stream_bytes fold_right]. lia.
  - cbn [firstn]. rewrite !stream_bytes_cons. specialize (IH _ H). lia.
Qed.

(** In a described stream, the lookup of [get] and [getType] for the
    [i]-th record is the offset where that record was stored. *)
Lemma holds_lookup pf s cs i c :
  holds pf s cs -> stream_bytes cs <= 2 ^ 31 ->
  nth_error cs i = Some c ->
  to_int (vector_at pf (_mappings s) (Z.of_nat i)) = stream_bytes (firstn i cs)
  /\ record_at pf (_data s) (stream_bytes (firstn i cs)) i c.
Proof.
  intros [Hm Hi Hr] Hcap Hc. split.
  - unfold vector_at. rewrite Nat2Z.id, Hm, (offsets_nth 0 cs i c Hc).
    rewrite Z.add_0_l. apply to_int_small.
    pose proof (stream_bytes_nth cs i c Hc). pose proof (record_bytes_pos c).
    pose proof (stream_bytes_nonneg (firstn i cs)).
    unfold EVENT_HEADER_SIZE in *. lia.
  - pose proof (records_at_nth pf _ 0 0 cs i c Hr Hc) as H.
    rewrite Z.add_0_l, Nat.add_0_l in H. exact H.
Qed.

Lemma holds_num pf s cs :
  holds pf s cs -> stream_bytes cs < 2 ^ 32 -> num s = Z.of_nat (length cs).
Proof.
  intros [Hm _ _] Hcap. unfold num. rewrite Hm, offsets_length.
  apply to_uint32_small. pose proof (stream_bytes_length cs).
  unfold EVENT_HEADER_SIZE in *. lia.
Qed.

Lemma holds_getType pf s cs i c :
  holds pf s cs -> stream_bytes cs <= 2 ^ 31 ->
  nth_error cs i = Some c ->
  getType pf s (Z.of_nat i) = to_int (call_type c).
Proof.
  intros H Hcap Hc. destruct (holds_lookup pf s cs i c H Hcap Hc) as [Hl Hr].
  unfold getType. rewrite Hl, (record_at_type _ _ _ _ _ Hr).
  apply to_int_to_uint32.
Qed.

Lemma holds_get_ilp32 pf s cs i c :
  data_model pf = ILP32 ->
  holds pf s cs -> stream_bytes cs <= 2 ^ 31 ->
  nth_error cs i = Some c ->
  get pf s (Z.of_nat i) = (true, call_payload c).
Proof.
  intros Hdm H Hcap Hc. destruct (holds_lookup pf s cs i c H Hcap Hc) as [Hl Hr].
  assert (Hlen : Z.of_nat (length (call_payload c)) < 2 ^ 32).
  { pose proof (stream_bytes_nth cs i c Hc).
    pose proof (stream_bytes_nonneg (firstn i cs)).
    unfold record_bytes, EVENT_HEADER_SIZE in *. lia. }
  unfold get. rewrite Hl. f_equal.
  rewrite (record_at_size_ilp32 _ _ _ _ _ Hdm Hlen Hr).
  apply Hr.
Qed.

(** * EventStream: capacity *)




(** * EventStream: index range *)




(** * EventStream: count and types *)

Lemma within_capacity_range cs : within_capacity cs -> stream_bytes cs <= 2 ^ 31.
Proof. unfold within_capacity, ARENA_SIZE. lia. Qed.

(** C5, as the source has it.  After a reset and the add calls [cs]
    within capacity, [num()] is the number of calls, and [getType(i)] is
    the type passed to the [i]-th call converted to [int], the result type
    of [getType]: the type itself when it is below 2^31. *)
Theorem num_getType_after_adds pf s cs :
  within_capacity cs ->
  num (run pf (reset s) cs) = Z.of_nat (length cs) /\
  forall i c, nth_error cs i = Some c ->
    getType pf (run pf (reset s) cs) (Z.of_nat i) = to_int (call_type c) /\
    (0 <= call_type c < 2 ^ 31 ->
     getType pf (run pf (reset s) cs) (Z.of_nat i) = call_type c).
Proof.
  intros Hcap. apply within_capacity_range in Hcap.
  assert (Hh : holds pf (run pf (reset s) cs) cs) by (apply holds_run; lia).
  split.
  - apply (holds_num pf _ cs Hh). lia.
  - intros i c Hc.
    pose proof (holds_getType pf _ cs i c Hh Hcap Hc) as Hg.
    split; [exact Hg|]. intros Hty. rewrite Hg. apply to_int_small. exact Hty.
Qed.

Lemma num_getType_after_adds_witness :
  let cs := [Add 3; AddData 7 [Byte.x01; Byte.x02]] in
  within_capacity cs /\
  num (run ilp32 (reset (new_EventStream zeroed)) cs) = 2 /\
  getType ilp32 (run ilp32 (reset (new_EventStream zeroed)) cs) 1 = 7.
Proof.
  intros cs.
  assert (H : within_capacity cs) by (vm_compute; discriminate).
  split; [exact H|].
  destruct (num_getType_after_adds ilp32 (new_EventStream zeroed) cs H) as [Hn Ht].
  split; [exact Hn|].
  exact (proj2 (Ht 1%nat (AddData 7 [Byte.x01; Byte.x02]) eq_refl)
           ltac:(cbn; lia)).
Defined.

(** C5 as the specification states it fails for a type of 2^31 or more:
    [add(4294967295)] is within capacity, and [getType(0)] is [-1]. *)
Lemma getType_of_large_type_negative :
  let cs := [Add 4294967295] in
  within_capacity cs /\
  getType ilp32 (run ilp32 (reset (new_EventStream zeroed)) cs) 0 = -1 /\
  getType ilp32 (run ilp32 (reset (new_EventStream zeroed)) cs) 0
    <> call_type (Add 4294967295).
Proof.
  cbv zeta. split; [vm_compute; discriminate|].
  split; [vm_compute; reflexivity|vm_compute; discriminate].
Qed.

(** * EventStream: containsType *)

Lemma containsType_loop_true pf s ty todo i :
  containsType_loop pf s ty i todo = true <->
  exists k, (k < todo)%nat /\
    int_eq_uint32 (getType pf s (to_uint32 (i + Z.of_nat k))) ty = true.
Proof.
  revert i. induction todo as [|todo IH]; intros i; cbn [containsType_loop].
  - split; [discriminate|]. intros (k & Hk & _). lia.
  - destruct (int_eq_uint32 (getType pf s (to_uint32 i)) ty) eqn:E.
    + split; [|reflexivity]. intros _. exists 0%nat. split; [lia|].
      rewrite Z.add_0_r. exact E.
    + rewrite IH. split.
      * intros (k & Hk & H). exists (S k). split; [lia|].
        rewrite <- H. do 3 f_equal. lia.
      * intros (k & Hk & H). destruct k as [|k].
        -- rewrite Z.add_0_r in H. congruence.
        -- exists k. split; [lia|]. rewrite <- H. do 3 f_equal. lia.
Qed.

Lemma to_int_range z : - 2 ^ 31 <= to_int z < 2 ^ 31.
Proof.
  unfold to_int.
  pose proof (Z.mod_pos_bound (z + 2 ^ 31) (2 ^ 32) eq_refl). lia.
Qed.

Lemma getType_range pf s index : - 2 ^ 31 <= getType pf s index < 2 ^ 31.
Proof. unfold getType. apply to_int_range. Qed.

(** C6, as the source has it.  [containsType(t)] is true exactly when
    some index [i] with [0 <= i < num()] has [getType(i)] equal to [t]
    converted to [int], the result type of [getType]: to [t] itself when
    [t] is below 2^31, to [t - 2^32] otherwise; on a stream without records
    it is false.  The record count is one the [int] loop counter reaches
    (the arena holds 341 records at most). *)
Theorem containsType_iff_getType pf s t :
  Z.of_nat (length (_mappings s)) < 2 ^ 31 ->
  0 <= t < 2 ^ 32 ->
  (containsType pf s t = true <->
   exists i, 0 <= i < num s /\ getType pf s i = to_int t) /\
  (t < 2 ^ 31 ->
   (containsType pf s t = true <->
    exists i, 0 <= i < num s /\ getType pf s i = t)) /\
  (num s = 0 -> containsType pf s t = false).
Proof.
  intros Hlen Ht.
  assert (Hnum : num s = Z.of_nat (length (_mappings s)))
    by (unfold num; apply to_uint32_small; lia).
  assert (Hiff : containsType pf s t = true <->
    exists i, 0 <= i < num s /\ getType pf s i = to_int t).
  { unfold containsType. rewrite containsType_loop_true, Hnum. split.
    - intros (k & Hk & H). exists (Z.of_nat k). split; [lia|].
      rewrite Z.add_0_l, to_uint32_small in H by lia.
      apply (int_eq_uint32_true _ t (getType_range pf s _) Ht). exact H.
    - intros (i & Hi & H). exists (Z.to_nat i). split; [lia|].
      rewrite Z.add_0_l, Z2Nat.id, to_uint32_small by lia.
      apply (int_eq_uint32_true _ t (getType_range pf s _) Ht). exact H. }
  split; [exact Hiff|]. split.
  - intros Hsmall. rewrite Hiff. rewrite to_int_small by lia. reflexivity.
  - intros H0. destruct (containsType pf s t) eqn:E; [|reflexivity].
    destruct Hiff as [Hiff _]. destruct (Hiff eq_refl) as (i & Hi & _). lia.
Qed.

Lemma containsType_iff_getType_witness :
  let s := run ilp32 (reset (new_EventStream zeroed))
             [Add 3; AddData 4294967295 [Byte.x01]] in
  Z.of_nat (length (_mappings s)) < 2 ^ 31 /\
  0 <= 4294967295 < 2 ^ 32 /\
  (containsType ilp32 s 4294967295 = true <->
   exists i, 0 <= i < num s /\ getType ilp32 s i = to_int 4294967295).
Proof.
  intros s.
  assert (H : Z.of_nat (length (_mappings s)) < 2 ^ 31) by (vm_compute; reflexivity).
  assert (Ht : 0 <= 4294967295 < 2 ^ 32) by lia.
  split; [exact H|]. split; [exact Ht|].
  exact (proj1 (containsType_iff_getType ilp32 s 4294967295 H Ht)).
Defined.

(** C6 as the specification states it fails for a type of 2^31 or more:
    after [add(3)] and [add(4294967295, p, 1)], [containsType(4294967295)]
    is true, and [getType] returns 3 and -1, at no index 4294967295. *)
Lemma containsType_true_without_equal_getType :
  let s := run ilp32 (reset (new_EventStream zeroed))
             [Add 3; AddData 4294967295 [Byte.x01]] in
  containsType ilp32 s 4294967295 = true /\
  num s = 2 /\ getType ilp32 s 0 = 3 /\ getType ilp32 s 1 = -1 /\
  ~ (exists i, 0 <= i < num s /\ getType ilp32 s i = 4294967295).
Proof.
  cbv zeta.
  set (s := run ilp32 (reset (new_EventStream zeroed))
              [Add 3; AddData 4294967295 [Byte.x01]]).
  assert (Hn : num s = 2) by (vm_compute; reflexivity).
  assert (H0 : getType ilp32 s 0 = 3) by (vm_compute; reflexivity).
  assert (H1 : getType ilp32 s 1 = -1) by (vm_compute; reflexivity).
  split; [vm_compute; reflexivity|].
  split; [exact Hn|]. split; [exact H0|]. split; [exact H1|].
  intros (i & Hi & H). rewrite Hn in Hi.
  assert (Hcase : i = 0 \/ i = 1) by lia.
  destruct Hcase as [-> | ->]; [rewrite H0 in H|rewrite H1 in H]; discriminate.
Qed.

(** * EventStream: layout, round trip and frame with a four-byte size_t *)

(** Where [size_t] has four bytes, [EVENT_HEADER_SIZE] is the size of
    [EventHeader], and the records are laid out as the specification says:
    the [i]-th offset in [_mappings] is where the [i]-th record starts, its
    header holds the sequence id [i], the type and the payload length, the
    payload follows the header directly, and the next record (or the
    cursor) follows the payload. *)
Lemma records_layout_ilp32 pf s cs i c :
  data_model pf = ILP32 ->
  within_capacity cs ->
  nth_error cs i = Some c ->
  let s' := run pf (reset s) cs in
  let off := stream_bytes (firstn i cs) in
  nth_error (_mappings s') i = Some off /\
  length (header_bytes pf {| id := Z.of_nat i; type := call_type c;
                             size := Z.of_nat (length (call_payload c)) |})
    = Z.to_nat EVENT_HEADER_SIZE /\
  header_id (_data s') off = Z.of_nat i /\
  header_type (_data s') off = to_uint32 (call_type c) /\
  header_size pf (_data s') off = Z.of_nat (length (call_payload c)) /\
  memcpy_from (_data s') (off + EVENT_HEADER_SIZE)
    (header_size pf (_data s') off) = call_payload c /\
  off + EVENT_HEADER_SIZE + header_size pf (_data s') off
    = stream_bytes (firstn (S i) cs) /\
  stream_bytes (firstn (S i) cs) <= _index s'.
Proof.
  intros Hdm Hcap Hc s' off. apply within_capacity_range in Hcap.
  assert (Hh : holds pf s' cs) by (apply holds_run; lia).
  destruct (holds_lookup pf s' cs i c Hh Hcap Hc) as [_ Hr].
  pose proof (stream_bytes_nth cs i c Hc) as Hb.
  pose proof (stream_bytes_nonneg (firstn i cs)) as Hnn.
  pose proof (stream_bytes_length cs) as Hl.
  assert (Hi : (i < length cs)%nat) by (apply nth_error_Some; congruence).
  assert (Hlen : Z.of_nat (length (call_payload c)) < 2 ^ 32)
    by (unfold record_bytes, EVENT_HEADER_SIZE in *; lia).
  assert (Hsz := record_at_size_ilp32 pf _ _ _ _ Hdm Hlen Hr).
  assert (Hnext : stream_bytes (firstn (S i) cs)
                  = off + record_bytes c).
  { clear - Hc. subst off. revert i Hc.
    induction cs as [|c' cs IH]; intros [|i] Hc; cbn in Hc; try discriminate.
    - injection Hc as ->. cbn [firstn stream_bytes fold_right]. lia.
    - change (firstn (S (S i)) (c' :: cs)) with (c' :: firstn (S i) cs).
      change (firstn (S i) (c' :: cs)) with (c' :: firstn i cs).
      rewrite !stream_bytes_cons, (IH i Hc). lia. }
  subst off.
  split; [rewrite (holds_mappings _ _ _ Hh), (offsets_nth 0 cs i c Hc); f_equal; lia|].
  split; [unfold header_bytes; rewrite Hdm, !length_app, !length_le_split;
          reflexivity|].
  split; [rewrite (record_at_id _ _ _ _ _ Hr); apply to_uint32_small;
          unfold EVENT_HEADER_SIZE in *; lia|].
  split; [exact (record_at_type _ _ _ _ _ Hr)|].
  split; [exact Hsz|].
  split; [rewrite Hsz; apply Hr|].
  split; [rewrite Hsz, Hnext; unfold record_bytes; lia|].
  rewrite (holds_index _ _ _ Hh), Hnext. exact Hb.
Qed.

(** Round trip where [size_t] has four bytes: [get(i)] returns [true]
    and the payload of the [i]-th add call. *)
Lemma get_roundtrip_ilp32 pf s cs i c :
  data_model pf = ILP32 ->
  within_capacity cs ->
  nth_error cs i = Some c ->
  get pf (run pf (reset s) cs) (Z.of_nat i) = (true, call_payload c).
Proof.
  intros Hdm Hcap Hc. apply within_capacity_range in Hcap.
  apply holds_get_ilp32 with (cs := cs); try assumption.
  apply holds_run. lia.
Qed.

(** An add call within capacity leaves the type of every earlier record
    as [getType] reports it, under either data model, *)
Lemma add_keeps_getType pf s cs c i :
  within_capacity (cs ++ [c]) ->
  (i < length cs)%nat ->
  getType pf (do_call pf (run pf (reset s) cs) c) (Z.of_nat i)
  = getType pf (run pf (reset s) cs) (Z.of_nat i).
Proof.
  intros Hcap Hi. apply within_capacity_range in Hcap.
  pose proof (stream_bytes_prefix cs c) as Hp.
  destruct (nth_error cs i) as [ci|] eqn:Hci;
    [|apply nth_error_None in Hci; lia].
  rewrite <- run_snoc.
  rewrite (holds_getType pf _ (cs ++ [c]) i ci);
    [|apply holds_run; lia|exact Hcap|rewrite nth_error_app1 by exact Hi; exact Hci].
  rewrite (holds_getType pf _ cs i ci);
    [reflexivity|apply holds_run; lia|lia|exact Hci].
Qed.

(** and, where [size_t] has four bytes, the payload as [get] returns it. *)
Lemma add_keeps_get_ilp32 pf s cs c i :
  data_model pf = ILP32 ->
  within_capacity (cs ++ [c]) ->
  (i < length cs)%nat ->
  get pf (do_call pf (run pf (reset s) cs) c) (Z.of_nat i)
  = get pf (run pf (reset s) cs) (Z.of_nat i).
Proof.
  intros Hdm Hcap Hi.
  assert (Hcap' : within_capacity cs).
  { pose proof (stream_bytes_prefix cs c). unfold within_capacity in *. lia. }
  destruct (nth_error cs i) as [ci|] eqn:Hci;
    [|apply nth_error_None in Hci; lia].
  rewrite <- run_snoc.
  rewrite (get_roundtrip_ilp32 pf s (cs ++ [c]) i ci Hdm Hcap);
    [|rewrite nth_error_app1 by exact Hi; exact Hci].
  rewrite (get_roundtrip_ilp32 pf s cs i ci Hdm Hcap' Hci). reflexivity.
Qed.

(** * EventStream: the eight-byte size_t *)

(** Where [size_t] has eight bytes, [EventHeader] has sixteen, and
    [EVENT_HEADER_SIZE] is still 12: [addHeader] copies the first twelve
    bytes of the header, the payload starts at byte 12, and [get] reads
    [header->size] from bytes 8 to 15, the upper four of which are the
    first payload bytes or whatever else follows. *)

(** The number of bytes [get(i)] copies then: the payload length plus
    2^32 times the value of the four bytes at offset 12 of the record. *)
Lemma get_lp64_length pf s cs i c :
  data_model pf = LP64 ->
  within_capacity cs ->
  nth_error cs i = Some c ->
  let s' := run pf (reset s) cs in
  let off := stream_bytes (firstn i cs) in
  length (snd (get pf s' (Z.of_nat i))) =
  Z.to_nat (Z.of_nat (length (call_payload c))
            + 2 ^ 32 * le_combine
                         (memcpy_from (_data s') (off + EVENT_HEADER_SIZE) 4)).
Proof.
  intros Hdm Hcap Hc s' off. apply within_capacity_range in Hcap.
  assert (Hh : holds pf s' cs) by (apply holds_run; lia).
  destruct (holds_lookup pf s' cs i c Hh Hcap Hc) as [Hl Hr].
  assert (Hlen : Z.of_nat (length (call_payload c)) < 2 ^ 32).
  { pose proof (stream_bytes_nth cs i c Hc).
    pose proof (stream_bytes_nonneg (firstn i cs)).
    unfold record_bytes, EVENT_HEADER_SIZE in *. lia. }
  unfold get. cbn [snd]. rewrite memcpy_from_length, Hl.
  rewrite (record_at_size_lp64 pf _ _ _ _ Hdm Hlen Hr). reflexivity.
Qed.

(** So [get(i)] returns the payload only if those four bytes, the first
    payload bytes or what follows a shorter payload, are all zero. *)
Lemma get_lp64_roundtrip_only_if pf s cs i c :
  data_model pf = LP64 ->
  within_capacity cs ->
  nth_error cs i = Some c ->
  let s' := run pf (reset s) cs in
  let off := stream_bytes (firstn i cs) in
  get pf s' (Z.of_nat i) = (true, call_payload c) ->
  memcpy_from (_data s') (off + EVENT_HEADER_SIZE) 4
  = [Byte.x00; Byte.x00; Byte.x00; Byte.x00].
Proof.
  intros Hdm Hcap Hc s' off Hget.
  pose proof (get_lp64_length pf s cs i c Hdm Hcap Hc) as Hl.
  cbv zeta in Hl. fold s' off in Hl. rewrite Hget in Hl. cbn [snd] in Hl.
  set (upper := memcpy_from (_data s') (off + EVENT_HEADER_SIZE) 4) in *.
  pose proof (le_combine_bound upper) as Hb.
  assert (Hz : le_combine upper = 0) by lia.
  apply le_combine_inj.
  - unfold upper. rewrite memcpy_from_length. reflexivity.
  - rewrite Hz. reflexivity.
Qed.

(** C2 at [add(7, {1,2}, 2)] with an eight-byte [size_t]: the offset in
    [_mappings] does not point to the sixteen bytes of the header; the
    size field found there is not 2, and the payload lies at bytes 12 and
    13, inside the header, not behind it. *)
Theorem header_lp64_size_field_overlaps_payload :
  let s := add_data lp64 (new_EventStream zeroed) 7 [Byte.x01; Byte.x02] in
  let header := {| id := 0; type := 7; size := 2 |} in
  _mappings s = [0] /\
  length (header_bytes lp64 header) = 16%nat /\
  memcpy_from (_data s) 0 16 <> header_bytes lp64 header /\
  header_size lp64 (_data s) 0 = 2203318222850 /\
  memcpy_from (_data s) (0 + EVENT_HEADER_SIZE) 2 = [Byte.x01; Byte.x02] /\
  memcpy_from (_data s) (0 + 16) 2 <> [Byte.x01; Byte.x02].
Proof.
  cbv zeta.
  split; [vm_compute; reflexivity|].
  split; [vm_compute; reflexivity|].
  split; [vm_compute; discriminate|].
  split; [vm_compute; reflexivity|].
  split; [vm_compute; reflexivity|vm_compute; discriminate].
Qed.

(** C4 at the same input: [get(0)] does not return the two payload
    bytes; it copies as many bytes as the size field read from bytes 8
    to 15 says, 2 + 2^32 * 0x0201. *)
Theorem get_lp64_payload_not_returned :
  let s := add_data lp64 (new_EventStream zeroed) 7 [Byte.x01; Byte.x02] in
  within_capacity [AddData 7 [Byte.x01; Byte.x02]] /\
  num s = 1 /\
  length (snd (get lp64 s 0)) = Z.to_nat 2203318222850 /\
  snd (get lp64 s 0) <> [Byte.x01; Byte.x02].
Proof.
  cbv zeta.
  set (s := add_data lp64 (new_EventStream zeroed) 7 [Byte.x01; Byte.x02]).
  assert (Hs : header_size lp64 (_data s)
                 (to_int (vector_at lp64 (_mappings s) 0)) = 2203318222850)
    by (vm_compute; reflexivity).
  assert (Hl : length (snd (get lp64 s 0)) = Z.to_nat 2203318222850).
  { unfold get. cbn [snd]. rewrite memcpy_from_length, Hs. reflexivity. }
  split; [vm_compute; discriminate|].
  split; [vm_compute; reflexivity|].
  split; [exact Hl|].
  intros H. rewrite H in Hl. cbn [length] in Hl. lia.
Qed.

(** C10 at [add(7)] followed by [add(8)] with an eight-byte [size_t]:
    before the second call [get(0)] returns the empty payload, after it
    [get(0)] copies 2^32 bytes, because the second header's id lies in the
    upper half of the first header's size field. *)
Theorem add_lp64_changes_get :
  let s := add lp64 (new_EventStream zeroed) 7 in
  let s' := add lp64 s 8 in
  within_capacity [Add 7; Add 8] /\
  get lp64 s 0 = (true, []) /\
  length (snd (get lp64 s' 0)) = Z.to_nat 4294967296 /\
  get lp64 s' 0 <> get lp64 s 0.
Proof.
  cbv zeta.
  set (s := add lp64 (new_EventStream zeroed) 7).
  set (s' := add lp64 s 8).
  assert (Hs : header_size lp64 (_data s')
                 (to_int (vector_at lp64 (_mappings s') 0)) = 4294967296)
    by (vm_compute; reflexivity).
  assert (Hl : length (snd (get lp64 s' 0)) = Z.to_nat 4294967296).
  { unfold get. cbn [snd]. rewrite memcpy_from_length, Hs. reflexivity. }
  assert (H0 : get lp64 s 0 = (true, [])) by (vm_compute; reflexivity).
  split; [vm_compute; discriminate|].
  split; [exact H0|].
  split; [exact Hl|].
  intros H. rewrite H, H0 in Hl. cbn [snd length] in Hl. lia.
Qed.

(** * StateMachine: lookup by name *)

Lemma find_loop_none {D : Type} (h : Store D) hash states :
  (forall state, In state states -> getHash (h state) <> hash) ->
  find_loop h hash states = None.
Proof.
  induction states as [|p rest IH]; intros H; cbn [find_loop]; [reflexivity|].
  destruct (getHash (h p) =? hash) eqn:E.
  - apply Z.eqb_eq in E. exfalso. apply (H p); [left; reflexivity|exact E].
  - apply IH. intros state Hin. apply H. right. exact Hin.
Qed.

Lemma find_loop_first {D : Type} (h : Store D) hash states i state :
  nth_error states i = Some state ->
  getHash (h state) = hash ->
  (forall j q, (j < i)%nat -> nth_error states j = Some q ->
               getHash (h q) <> hash) ->
  find_loop h hash states = Some state.
Proof.
  revert i. induction states as [|p rest IH]; intros [|i] Hn Hh Hfirst;
    cbn in Hn; try discriminate; cbn [find_loop].
  - injection Hn as ->. rewrite (proj2 (Z.eqb_eq _ _) Hh). reflexivity.
  - destruct (getHash (h p) =? hash) eqn:E.
    + apply Z.eqb_eq in E. exfalso.
      apply (Hfirst 0%nat p); [lia|reflexivity|exact E].
    + apply (IH i Hn Hh). intros j q Hj Hq.
      apply (Hfirst (S j) q); [lia|exact Hq].
Qed.

(** C8.  When no registered state has the hash of [name], [find]
    returns the null pointer, and [activate(name)] and [deactivate(name)]
    return without calling anything: the objects (and with them every
    active flag), the list of states and the event stream are the same
    afterwards. *)
Theorem activate_deactivate_unknown_name {F D : Type} (vt : Virtuals F D)
  (h : Store D) (m : StateMachine) (name : list byte) :
  (forall state, In state (_states m) ->
                 getHash (h state) <> fnv1a name FNV_Seed) ->
  find h m name = None /\
  activate vt h m name = (h, m) /\
  deactivate vt h m name = (h, m).
Proof.
  intros H.
  assert (Hf : find h m name = None) by (apply find_loop_none; exact H).
  unfold activate, deactivate. rewrite Hf. repeat split.
Qed.

Lemma activate_deactivate_unknown_name_witness :
  (forall state, In state (_states two_intros) ->
                 getHash (spies state) <> fnv1a Outro FNV_Seed) /\
  activate spy spies two_intros Outro = (spies, two_intros).
Proof.
  assert (H : forall state, In state (_states two_intros) ->
                getHash (spies state) <> fnv1a Outro FNV_Seed).
  { intros state [<-|[<-|[]]]; vm_compute; discriminate. }
  split; [exact H|].
  exact (proj1 (proj2 (activate_deactivate_unknown_name spy spies two_intros Outro H))).
Defined.

(** C9.  When several registered states have the hash of [name], the
    lookup resolves to the one registered first: the state at position
    [i] is found when it has the hash and no state registered before it
    has, whatever follows it; [activate] and [deactivate] then call that
    state and no other. *)
Theorem find_first_registered {F D : Type} (vt : Virtuals F D)
  (h : Store D) (m : StateMachine) (name : list byte) (i : nat) (state : nat) :
  nth_error (_states m) i = Some state ->
  getHash (h state) = fnv1a name FNV_Seed ->
  (forall j q, (j < i)%nat -> nth_error (_states m) j = Some q ->
               getHash (h q) <> fnv1a name FNV_Seed) ->
  find h m name = Some state /\
  activate vt h m name = (poke h state (v_activate vt (h state)), m) /\
  deactivate vt h m name = (poke h state (v_deactivate vt (h state)), m).
Proof.
  intros Hn Hh Hfirst.
  assert (Hf : find h m name = Some state)
    by (apply (find_loop_first h _ _ i); assumption).
  unfold activate, deactivate. rewrite Hf. repeat split.
Qed.

Lemma find_first_registered_witness :
  nth_error (_states two_intros) 0 = Some 0%nat /\
  nth_error (_states two_intros) 1 = Some 1%nat /\
  getHash (spies 0%nat) = fnv1a Intro FNV_Seed /\
  getHash (spies 1%nat) = fnv1a Intro FNV_Seed /\
  find spies two_intros Intro = Some 0%nat.
Proof.
  assert (H0 : nth_error (_states two_intros) 0 = Some 0%nat) by reflexivity.
  assert (Hh : getHash (spies 0%nat) = fnv1a Intro FNV_Seed) by reflexivity.
  assert (Hf : forall j q, (j < 0)%nat -> nth_error (_states two_intros) j = Some q ->
                 getHash (spies q) <> fnv1a Intro FNV_Seed)
    by (intros j q Hj; lia).
  split; [exact H0|]. split; [reflexivity|]. split; [exact Hh|].
  split; [reflexivity|].
  exact (proj1 (find_first_registered spy spies two_intros Intro 0%nat 0%nat H0 Hh Hf)).
Defined.

(** * StateMachine: tick *)

Lemma poke_other {D : Type} (h : Store D) p g q : q <> p -> poke h p g q = h q.
Proof.
  intros H. unfold poke. destruct (Nat.eqb_spec q p); [contradiction|reflexivity].
Qed.

Lemma tick_loop_calls {F D : Type} (vt : Virtuals F D) (dt : F) states :
  forall i0 h stream h' stream' calls,
  tick_loop vt dt states i0 h stream = (h', stream', calls) ->
  handed_on vt stream calls stream' /\
  (forall c, In c calls ->
     (i0 <= tc_slot c)%nat /\
     nth_error states (tc_slot c - i0) = Some (tc_state c) /\
     tc_dt c = dt /\ isActive (tc_self c) = true) /\
  (forall k state, nth_error states k = Some state ->
     ~ In state (firstn k states) ->
     (In (i0 + k)%nat (map tc_slot calls) <-> isActive (h state) = true)).
Proof.
  induction states as [|p rest IH]; intros i0 h stream h' stream' calls Hl;
    cbn [tick_loop] in Hl.
  - injection Hl as <- <- <-. split; [reflexivity|]. split.
    + intros c [].
    + intros [|k] state Hn; discriminate.
  - destruct (isActive (h p)) eqn:Ha.
    + destruct (v_tick vt (h p) dt stream) as [ret [g st1]] eqn:Ev.
      destruct (tick_loop vt dt rest (S i0) (poke h p g) st1)
        as [[h1 st2] calls1] eqn:El.
      injection Hl as <- <- <-.
      destruct (IH _ _ _ _ _ _ El) as (IH1 & IH2 & IH3).
      split; [|split].
      * cbn [handed_on tc_stream]. split; [reflexivity|].
        unfold stream_after. cbn [tc_self tc_dt tc_stream].
        rewrite Ev. exact IH1.
      * intros c [<-|Hin].
        -- cbn [tc_slot tc_state tc_dt tc_self].
           rewrite Nat.sub_diag. repeat split; [lia|exact Ha].
        -- destruct (IH2 c Hin) as (Hs & Hn & Hd & Hact).
           repeat split; try assumption; [lia|].
           replace (tc_slot c - i0)%nat with (S (tc_slot c - S i0)) by lia.
           exact Hn.
      * intros [|k] state Hn Hfresh; cbn in Hn.
        -- injection Hn as <-. rewrite Nat.add_0_r. cbn [map tc_slot].
           split; [intros _; exact Ha|intros _; left; reflexivity].
        -- cbn [firstn] in Hfresh.
           assert (Hne : state <> p) by (intros ->; apply Hfresh; left; reflexivity).
           assert (Hfresh' : ~ In state (firstn k rest))
             by (intros Hin; apply Hfresh; right; exact Hin).
           specialize (IH3 k state Hn Hfresh').
           rewrite poke_other in IH3 by exact Hne.
           rewrite <- IH3. cbn [map tc_slot In].
           replace (i0 + S k)%nat with (S i0 + k)%nat by lia.
           split; [intros [Heq|Hin]; [lia|exact Hin]|intros Hin; right; exact Hin].
    + destruct (IH _ _ _ _ _ _ Hl) as (IH1 & IH2 & IH3).
      split; [exact IH1|]. split.
      * intros c Hin. destruct (IH2 c Hin) as (Hs & Hn & Hd & Hact).
        repeat split; try assumption; [lia|].
        replace (tc_slot c - i0)%nat with (S (tc_slot c - S i0)) by lia.
        exact Hn.
      * intros [|k] state Hn Hfresh; cbn in Hn.
        -- injection Hn as <-. rewrite Nat.add_0_r, Ha.
           split; [|discriminate]. intros Hin. apply in_map_iff in Hin.
           destruct Hin as (c & Hc & Hin).
           destruct (IH2 c Hin) as (Hs & _). lia.
        -- cbn [firstn] in Hfresh.
           assert (Hfresh' : ~ In state (firstn k rest))
             by (intros Hin; apply Hfresh; right; exact Hin).
           specialize (IH3 k state Hn Hfresh').
           replace (i0 + S k)%nat with (S i0 + k)%nat by lia. exact IH3.
Qed.

Lemma store_when_reached_cons {F D : Type} (hv : Host F D) (h : Store D)
  (c : HostCall F D) calls i :
  store_when_reached hv h (c :: calls) i =
  store_when_reached hv
    (if (hc_slot c <? i)%nat then hc_store_after hv c else h) calls i.
Proof. reflexivity. Qed.

Lemma store_when_reached_later {F D : Type} (hv : Host F D)
  (calls : list (HostCall F D)) i :
  forall h, (forall c, In c calls -> (i <= hc_slot c)%nat) ->
  store_when_reached hv h calls i = h.
Proof.
  induction calls as [|c calls IH]; intros h H; [reflexivity|].
  rewrite store_when_reached_cons.
  replace (hc_slot c <? i)%nat with false.
  - apply IH. intros c' Hc'. apply H. right. exact Hc'.
  - symmetry. apply Nat.ltb_ge. apply H. left. reflexivity.
Qed.

Lemma tick_loop_host_calls {F D : Type} (hv : Host F D) (dt : F) states :
  forall i0 h stream h' stream' calls,
  tick_loop_host hv dt states i0 h stream = (h', stream', calls) ->
  chained hv h stream calls h' stream' /\
  (forall c, In c calls ->
     (i0 <= hc_slot c)%nat /\
     nth_error states (hc_slot c - i0) = Some (hc_state c) /\
     hc_dt c = dt /\ isActive (hc_store c (hc_state c)) = true) /\
  StronglySorted lt (map hc_slot calls) /\
  (forall k p, nth_error states k = Some p ->
     (In (i0 + k)%nat (map hc_slot calls) <->
      isActive (store_when_reached hv h calls (i0 + k) p) = true)).
Proof.
  induction states as [|p rest IH]; intros i0 h stream h' stream' calls Hl;
    cbn [tick_loop_host] in Hl.
  - injection Hl as <- <- <-. split; [split; reflexivity|]. split; [|split].
    + intros c [].
    + constructor.
    + intros [|k] q Hn; discriminate.
  - destruct (isActive (h p)) eqn:Ha.
    + destruct (host_tick hv p dt h stream) as [ret [h1 st1]] eqn:Ev.
      destruct (tick_loop_host hv dt rest (S i0) h1 st1)
        as [[h2 st2] calls1] eqn:El.
      injection Hl as <- <- <-.
      destruct (IH _ _ _ _ _ _ El) as (IH1 & IH2 & IH3 & IH4).
      set (call := {| hc_slot := i0; hc_state := p; hc_store := h;
                      hc_dt := dt; hc_stream := stream |}).
      assert (Hafter : hc_store_after hv call = h1)
        by (unfold hc_store_after, call; cbn; rewrite Ev; reflexivity).
      assert (Hafter' : hc_stream_after hv call = st1)
        by (unfold hc_stream_after, call; cbn; rewrite Ev; reflexivity).
      split; [|split; [|split]].
      * cbn [chained]. split; [reflexivity|]. split; [reflexivity|].
        rewrite Hafter, Hafter'. exact IH1.
      * intros c [<-|Hin].
        -- cbn [call hc_slot hc_state hc_dt hc_store].
           rewrite Nat.sub_diag. repeat split; [lia|exact Ha].
        -- destruct (IH2 c Hin) as (Hs & Hn & Hd & Hact).
           repeat split; try assumption; [lia|].
           replace (hc_slot c - i0)%nat with (S (hc_slot c - S i0)) by lia.
           exact Hn.
      * cbn [map]. constructor; [exact IH3|].
        apply Forall_forall. intros x Hx. apply in_map_iff in Hx.
        destruct Hx as (c & <- & Hin). destruct (IH2 c Hin) as (Hs & _).
        cbn [call hc_slot]. lia.
      * intros [|k] q Hn; cbn in Hn.
        -- injection Hn as <-. rewrite Nat.add_0_r.
           rewrite store_when_reached_cons.
           replace (hc_slot call <? i0)%nat with false
             by (symmetry; apply Nat.ltb_ge; cbn; lia).
           rewrite store_when_reached_later
             by (intros c Hin; destruct (IH2 c Hin) as (Hs & _); lia).
           split; [intros _; exact Ha|intros _; left; reflexivity].
        -- rewrite store_when_reached_cons.
           replace (hc_slot call <? i0 + S k)%nat with true
             by (symmetry; apply Nat.ltb_lt; cbn; lia).
           rewrite Hafter.
           replace (i0 + S k)%nat with (S i0 + k)%nat by lia.
           rewrite <- (IH4 k q Hn). cbn [map In].
           split; [intros [Heq|Hin]; [cbn in Heq; lia|exact Hin]
                  |intros Hin; right; exact Hin].
    + destruct (IH _ _ _ _ _ _ Hl) as (IH1 & IH2 & IH3 & IH4).
      split; [exact IH1|]. split; [|split; [exact IH3|]].
      * intros c Hin. destruct (IH2 c Hin) as (Hs & Hn & Hd & Hact).
        repeat split; try assumption; [lia|].
        replace (hc_slot c - i0)%nat with (S (hc_slot c - S i0)) by lia.
        exact Hn.
      * intros [|k] q Hn; cbn in Hn.
        -- injection Hn as <-. rewrite Nat.add_0_r.
           rewrite store_when_reached_later
             by (intros c Hin; destruct (IH2 c Hin) as (Hs & _); lia).
           rewrite Ha. split; [|discriminate].
           intros Hin. apply in_map_iff in Hin.
           destruct Hin as (c & Hc & Hin).
           destruct (IH2 c Hin) as (Hs & _). lia.
        -- replace (i0 + S k)%nat with (S i0 + k)%nat by lia.
           exact (IH4 k q Hn).
Qed.

(** C7.  [tick(dt)] resets the stream, which then holds no record, and
    goes through [_states] in registration order.  The flag of a state is
    read when the loop reaches its position: the state at a position is
    called if and only if its active flag is true then, the state objects
    being as the calls at the earlier positions left them, so a state that
    is inactive when its turn comes gets no call.  The calls are made in
    registration order with [dt], each on a registered state, and they all
    work on the one stream and the same objects: the first gets the reset
    stream, each further one the stream and the objects as the call before
    left them, and the machine's stream and the objects after [tick] are
    what the last call left.  The list of states is unchanged. *)
Theorem tick_resets_and_ticks_active_states {F D : Type} (hv : Host F D)
  (h : Store D) (m : StateMachine) (dt : F) :
  let h' := fst (fst (tick_host hv h m dt)) in
  let m' := snd (fst (tick_host hv h m dt)) in
  let calls := snd (tick_host hv h m dt) in
  num (reset (_stream m)) = 0 /\
  chained hv h (reset (_stream m)) calls h' (_stream m') /\
  _states m' = _states m /\
  StronglySorted lt (map hc_slot calls) /\
  (forall c, In c calls ->
     nth_error (_states m) (hc_slot c) = Some (hc_state c) /\
     hc_dt c = dt /\ isActive (hc_store c (hc_state c)) = true) /\
  (forall i state, nth_error (_states m) i = Some state ->
     (In i (map hc_slot calls) <->
      isActive (store_when_reached hv h calls i state) = true)).
Proof.
  unfold tick_host.
  destruct (tick_loop_host hv dt (_states m) 0%nat h (reset (_stream m)))
    as [[h1 st1] calls1] eqn:El.
  cbn [fst snd _states _stream].
  destruct (tick_loop_host_calls hv dt _ _ _ _ _ _ _ El) as (H1 & H2 & H3 & H4).
  split; [reflexivity|]. split; [exact H1|]. split; [reflexivity|].
  split; [exact H3|]. split.
  - intros c Hin. destruct (H2 c Hin) as (_ & Hn & Hd & Ha).
    rewrite Nat.sub_0_r in Hn. auto.
  - intros i state Hn. exact (H4 i state Hn).
Qed.

(** * Examples *)

(** The published FNV-1a value of "a". *)
Example fnv1a_a : fnv1a [Byte.x61; Byte.x00] FNV_Seed = 0xE40C292C.
Proof. reflexivity. Qed.

(** The bytes of a record, with a four-byte [size_t]. *)
Example record_bytes_in_memory :
  memcpy_from
    (_data (add_data ilp32 (new_EventStream zeroed) 7 [Byte.x01; Byte.x02]))
    0 14
  = [Byte.x00; Byte.x00; Byte.x00; Byte.x00;
     Byte.x07; Byte.x00; Byte.x00; Byte.x00;
     Byte.x02; Byte.x00; Byte.x00; Byte.x00;
     Byte.x01; Byte.x02].
Proof. vm_compute. reflexivity. Qed.

(** With "Intro" activated, one tick calls "Intro" only, and the event
    it adds is read back through the machine; a second tick starts from an
    empty stream again. *)
Example tick_intro_only :
  let '(h, m) := activate spy spies intro_outro Intro in
  let '(h1, m1, calls1) := tick spy h m 16 in
  let '(h2, m2, calls2) := tick spy h1 m1 16 in
  map tc_slot calls1 = [0%nat] /\
  derived (h1 0%nat) = 1%nat /\ derived (h1 2%nat) = 0%nat /\
  numEvents m1 = 1 /\ hasEvents m1 = true /\
  getEventType ilp32 m1 0 = 7 /\
  getEvent ilp32 m1 0 = (true, [Byte.x01; Byte.x02]) /\
  containsEventType ilp32 m1 7 = true /\
  containsEventType ilp32 m1 8 = false /\
  numEvents m2 = 1 /\ derived (h2 0%nat) = 2%nat.
Proof. vm_compute. repeat split. Qed.

(** A tick can change the flags of the states that come after it: with
    "Intro" active and "Outro" inactive when [tick] starts, the tick of
    "Intro" activates "Outro", the loop finds it active at its position and
    calls it too, and both events are in the stream. *)
Example tick_calls_state_activated_on_the_way :
  let h := fst (activate_host meddler spies intro_outro Intro) in
  let '(h1, m1, calls1) := tick_host meddler h intro_outro 16 in
  isActive (h 0%nat) = true /\ isActive (h 2%nat) = false /\
  map hc_slot calls1 = [0%nat; 1%nat] /\
  map hc_state calls1 = [0%nat; 2%nat] /\
  derived (h1 0%nat) = 1%nat /\ derived (h1 2%nat) = 1%nat /\
  numEvents m1 = 2.
Proof. vm_compute. repeat split. Qed.

(** For derived classes that keep to themselves, the loop over the host
    code is the loop over their functions. *)
Lemma tick_loop_host_confined {F D : Type} (vt : Virtuals F D) (dt : F)
  states :
  forall i h stream,
  fst (tick_loop_host (confined vt) dt states i h stream)
  = fst (tick_loop vt dt states i h stream).
Proof.
  induction states as [|p rest IH]; intros i h stream;
    cbn [tick_loop_host tick_loop]; [reflexivity|].
  destruct (isActive (h p)); [|apply IH].
  cbn [confined host_tick].
  destruct (v_tick vt (h p) dt stream) as [ret [g st1]].
  specialize (IH (S i) (poke h p g) st1).
  destruct (tick_loop_host (confined vt) dt rest (S i) (poke h p g) st1)
    as [[h1 st2] calls1].
  destruct (tick_loop vt dt rest (S i) (poke h p g) st1) as [[h2 st3] calls2].
  cbn [fst] in *. exact IH.
Qed.

Lemma tick_host_confined {F D : Type} (vt : Virtuals F D) (h : Store D)
  (m : StateMachine) (dt : F) :
  fst (tick_host (confined vt) h m dt) = fst (tick vt h m dt).
Proof.
  unfold tick_host, tick.
  pose proof (tick_loop_host_confined vt dt (_states m) 0%nat h
                (reset (_stream m))) as H.
  destruct (tick_loop_host (confined vt) dt (_states m) 0%nat h
              (reset (_stream m))) as [[h1 st1] calls1].
  destruct (tick_loop vt dt (_states m) 0%nat h (reset (_stream m)))
    as [[h2 st2] calls2].
  cbn [fst] in *. injection H as -> ->. reflexivity.
Qed.

(** * Further properties: fnv1a *)

(** X1.  [fnv1a] reads a C string: whatever follows the first zero byte
    has no influence on the hash. *)
Theorem fnv1a_stops_at_terminator (a b : list byte) (hash : Z) :
  fnv1a (a ++ Byte.x00 :: b) hash = fnv1a a hash.
Proof.
  revert hash. induction a as [|c a IH]; intros hash; cbn [app fnv1a].
  - reflexivity.
  - destruct (byte.unsigned c =? 0); [reflexivity|apply IH].
Qed.

(** X2.  Started from a 32-bit value, as the seed is, the hash is a
    32-bit value. *)
Theorem fnv1a_is_uint32 (text : list byte) (hash : Z) :
  0 <= hash < 2 ^ 32 -> 0 <= fnv1a text hash < 2 ^ 32.
Proof.
  revert hash. induction text as [|c text IH]; intros hash H; cbn [fnv1a].
  - exact H.
  - destruct (byte.unsigned c =? 0); [exact H|].
    apply IH. unfold to_uint32. apply Z.mod_pos_bound. reflexivity.
Qed.

Lemma fnv1a_is_uint32_witness :
  0 <= FNV_Seed < 2 ^ 32 /\ 0 <= fnv1a Intro FNV_Seed < 2 ^ 32.
Proof.
  assert (H : 0 <= FNV_Seed < 2 ^ 32) by (unfold FNV_Seed; lia).
  split; [exact H|]. exact (fnv1a_is_uint32 Intro FNV_Seed H).
Defined.

(** X3.  The second argument continues a hash: hashing a text without
    zero bytes and then, from that value, a second text gives the hash of
    the two texts joined. *)
Theorem fnv1a_continues (a b : list byte) (hash : Z) :
  (forall c, In c a -> byte.unsigned c <> 0) ->
  fnv1a (a ++ b) hash = fnv1a b (fnv1a a hash).
Proof.
  revert hash. induction a as [|c a IH]; intros hash H; cbn [app fnv1a].
  - reflexivity.
  - destruct (byte.unsigned c =? 0) eqn:E.
    + apply Z.eqb_eq in E. exfalso. apply (H c); [left; reflexivity|exact E].
    + apply IH. intros c' Hc'. apply H. right. exact Hc'.
Qed.

Lemma fnv1a_continues_witness :
  (forall c, In c [Byte.x49; Byte.x6e] -> byte.unsigned c <> 0) /\
  fnv1a ([Byte.x49; Byte.x6e] ++ [Byte.x74; Byte.x00]) FNV_Seed
  = fnv1a [Byte.x74; Byte.x00] (fnv1a [Byte.x49; Byte.x6e] FNV_Seed).
Proof.
  assert (H : forall c, In c [Byte.x49; Byte.x6e] -> byte.unsigned c <> 0).
  { intros c [<-|[<-|[]]]; vm_compute; discriminate. }
  split; [exact H|].
  exact (fnv1a_continues [Byte.x49; Byte.x6e] [Byte.x74; Byte.x00] FNV_Seed H).
Defined.

(** * Further properties: lookup and registration *)

Lemma find_loop_some {D : Type} (h : Store D) hash states state :
  find_loop h hash states = Some state ->
  In state states /\ getHash (h state) = hash.
Proof.
  induction states as [|p rest IH]; cbn [find_loop]; [discriminate|].
  destruct (getHash (h p) =? hash) eqn:E.
  - intros [= <-]. apply Z.eqb_eq in E. split; [left; reflexivity|exact E].
  - intros H. destruct (IH H) as [Hin Hh]. split; [right; exact Hin|exact Hh].
Qed.

Lemma find_loop_app {D : Type} (h : Store D) hash l1 l2 :
  find_loop h hash (l1 ++ l2) =
  match find_loop h hash l1 with
  | Some state => Some state
  | None => find_loop h hash l2
  end.
Proof.
  induction l1 as [|p rest IH]; cbn [app find_loop]; [reflexivity|].
  destruct (getHash (h p) =? hash); [reflexivity|exact IH].
Qed.

(** The lookup sees the objects through their hashes only. *)
Lemma find_loop_same_hashes {D : Type} (h h' : Store D) hash states :
  (forall q, In q states -> getHash (h' q) = getHash (h q)) ->
  find_loop h' hash states = find_loop h hash states.
Proof.
  induction states as [|p rest IH]; intros H; cbn [find_loop]; [reflexivity|].
  rewrite (H p) by (left; reflexivity).
  rewrite IH; [reflexivity|]. intros q Hq. apply H. right. exact Hq.
Qed.

(** X4.  [find] returns the null pointer exactly when no registered state
    has the hash of the name, as on a machine without states; a pointer it
    returns is a registered one, to a state with that hash. *)
Theorem find_null_iff_no_hash {D : Type} (h : Store D) (m : StateMachine)
  (name : list byte) :
  (find h m name = None <->
   forall state, In state (_states m) ->
                 getHash (h state) <> fnv1a name FNV_Seed) /\
  (forall state, find h m name = Some state ->
     In state (_states m) /\ getHash (h state) = fnv1a name FNV_Seed) /\
  (_states m = [] -> find h m name = None).
Proof.
  assert (Hsome : forall state, find h m name = Some state ->
            In state (_states m) /\ getHash (h state) = fnv1a name FNV_Seed)
    by (intros state; apply find_loop_some).
  split; [|split; [exact Hsome|]].
  - split; [|apply find_loop_none].
    intros Hnone state Hin Hh.
    destruct (In_nth_error _ _ Hin) as [i Hi].
    revert Hnone. unfold find.
    clear Hsome Hin. revert i Hi.
    induction (_states m) as [|p rest IH]; intros [|i] Hi; cbn in Hi;
      try discriminate; cbn [find_loop].
    + injection Hi as ->. rewrite (proj2 (Z.eqb_eq _ _) Hh). discriminate.
    + destruct (getHash (h p) =? fnv1a name FNV_Seed); [discriminate|].
      exact (IH i Hi).
  - intros H. unfold find. rewrite H. reflexivity.
Qed.

(** X5.  Registering a state never changes what a name resolves to: a
    name that resolved to a state before [StateMachine::add] resolves to
    the same state after it, and a name that resolved to none resolves to
    the new state exactly if that has its hash. *)
Theorem find_after_add {D : Type} (h : Store D) (m : StateMachine)
  (state : nat) (name : list byte) :
  find h (StateMachine_add m state) name =
  match find h m name with
  | Some found => Some found
  | None => if getHash (h state) =? fnv1a name FNV_Seed then Some state
            else None
  end.
Proof.
  unfold find, StateMachine_add. cbn [_states].
  rewrite find_loop_app. reflexivity.
Qed.

(** X6.  A state constructed with a name is inactive, and once it is
    registered in a machine where that name resolved to none, the name
    resolves to it. *)
Theorem new_state_registered_is_found {D : Type} (h : Store D)
  (m : StateMachine) (state : nat) (name : list byte) (d : D) :
  h state = new_GameState name d ->
  find h m name = None ->
  isActive (h state) = false /\
  find h (StateMachine_add m state) name = Some state.
Proof.
  intros Hnew Hnone. split; [rewrite Hnew; reflexivity|].
  unfold find, StateMachine_add in *. cbn [_states].
  rewrite find_loop_app, Hnone. cbn [find_loop].
  rewrite Hnew. cbn [getHash new_GameState _hash].
  rewrite Z.eqb_refl. reflexivity.
Qed.

Lemma new_state_registered_is_found_witness :
  spies 2%nat = new_GameState Outro 0%nat /\
  find spies two_intros Outro = None /\
  find spies (StateMachine_add two_intros 2%nat) Outro = Some 2%nat.
Proof.
  assert (H1 : spies 2%nat = new_GameState Outro 0%nat) by reflexivity.
  assert (H2 : find spies two_intros Outro = None) by (vm_compute; reflexivity).
  split; [exact H1|]. split; [exact H2|].
  exact (proj2 (new_state_registered_is_found spies two_intros 2%nat Outro 0%nat H1 H2)).
Defined.

(** * Further properties: activate and deactivate *)

Lemma poke_same {D : Type} (h : Store D) p g : poke h p g p = g.
Proof. unfold poke. rewrite Nat.eqb_refl. reflexivity. Qed.

(** X8.  Activating twice is the same as activating once, provided the
    state's own [activate] does not change its hash and does nothing more
    when repeated: the second call finds the same state again. *)
Theorem activate_twice {F D : Type} (vt : Virtuals F D)
  (h : Store D) (m : StateMachine) (name : list byte) :
  (forall g, getHash (v_activate vt g) = getHash g) ->
  (forall g, v_activate vt (v_activate vt g) = v_activate vt g) ->
  find (fst (activate vt h m name)) m name = find h m name /\
  forall q,
    fst (activate vt (fst (activate vt h m name)) m name) q
    = fst (activate vt h m name) q.
Proof.
  intros Hhash Hidem.
  assert (Hfind : find (fst (activate vt h m name)) m name = find h m name).
  { unfold activate. destruct (find h m name) as [state|] eqn:Hf;
      cbn [fst]; [|exact Hf].
    unfold find in *. rewrite <- Hf. apply find_loop_same_hashes.
    intros q _. unfold poke. destruct (Nat.eqb_spec q state) as [->|_];
      [apply Hhash|reflexivity]. }
  split; [exact Hfind|]. intros q.
  unfold activate at 1. rewrite Hfind.
  unfold activate. destruct (find h m name) as [state|]; cbn [fst];
    [|reflexivity].
  rewrite poke_same, Hidem.
  unfold poke. destruct (Nat.eqb q state); reflexivity.
Qed.

Lemma activate_twice_witness :
  (forall g, getHash (v_activate spy g) = getHash g) /\
  (forall g, v_activate spy (v_activate spy g) = v_activate spy g) /\
  find (fst (activate spy spies intro_outro Intro)) intro_outro Intro
  = find spies intro_outro Intro.
Proof.
  assert (H1 : forall g, getHash (v_activate spy g) = getHash g)
    by (intros g; reflexivity).
  assert (H2 : forall g, v_activate spy (v_activate spy g) = v_activate spy g)
    by (intros g; reflexivity).
  split; [exact H1|]. split; [exact H2|].
  exact (proj1 (activate_twice spy spies intro_outro Intro H1 H2)).
Defined.

(** * Further properties: tick *)

Lemma tick_loop_all_inactive {F D : Type} (vt : Virtuals F D) (dt : F) states :
  forall i0 h stream,
  (forall p, In p states -> isActive (h p) = false) ->
  tick_loop vt dt states i0 h stream = (h, stream, []).
Proof.
  induction states as [|q rest IH]; intros i0 h stream H; cbn [tick_loop];
    [reflexivity|].
  rewrite (H q) by (left; reflexivity).
  apply IH. intros p Hp. apply H. right. exact Hp.
Qed.

(** X10.  When no registered state is active, as on a machine without
    states, [tick] makes no call and changes no object, and the machine
    has no events afterwards, whatever the stream held before. *)
Theorem tick_without_active_state {F D : Type} (vt : Virtuals F D)
  (h : Store D) (m : StateMachine) (dt : F) :
  (forall p, In p (_states m) -> isActive (h p) = false) ->
  tick vt h m dt
  = (h, {| _states := _states m; _stream := reset (_stream m) |}, []) /\
  numEvents (snd (fst (tick vt h m dt))) = 0 /\
  hasEvents (snd (fst (tick vt h m dt))) = false /\
  forall pf ty, containsEventType pf (snd (fst (tick vt h m dt))) ty = false.
Proof.
  intros H.
  assert (Ht : tick vt h m dt
               = (h, {| _states := _states m; _stream := reset (_stream m) |}, [])).
  { unfold tick. rewrite tick_loop_all_inactive by exact H. reflexivity. }
  rewrite Ht. cbn [fst snd]. repeat split.
Qed.

Lemma tick_without_active_state_witness :
  (forall p, In p (_states intro_outro) -> isActive (spies p) = false) /\
  numEvents (snd (fst (tick spy spies intro_outro 16))) = 0.
Proof.
  assert (H : forall p, In p (_states intro_outro) -> isActive (spies p) = false).
  { intros p [<-|[<-|[]]]; reflexivity. }
  split; [exact H|].
  exact (proj1 (proj2 (tick_without_active_state spy spies intro_outro 16 H))).
Defined.

Lemma run_app pf s cs cs' : run pf s (cs ++ cs') = run pf (run pf s cs) cs'.
Proof. unfold run. apply fold_left_app. Qed.

Lemma handed_on_run {F D : Type} (vt : Virtuals F D) (pf : Platform)
  (emits : GameState D -> F -> list AddCall) (calls : list (TickCall F D)) :
  (forall g d st, snd (snd (v_tick vt g d st)) = run pf st (emits g d)) ->
  forall stream final,
  handed_on vt stream calls final ->
  final = run pf stream
            (concat (map (fun c => emits (tc_self c) (tc_dt c)) calls)).
Proof.
  intros Hemit. induction calls as [|c rest IH]; intros stream final H;
    cbn [handed_on map concat] in *.
  - exact H.
  - destruct H as [Hs H]. rewrite run_app.
    rewrite (IH _ _ H). unfold stream_after. rewrite Hemit, Hs. reflexivity.
Qed.

(** X11.  The events of one frame accumulate in the one stream: when
    the tick of a state does nothing to the stream but add events, the
    machine's stream after [tick] holds the events of the called states, in
    the order of the calls, and nothing of the frame before.  Within
    capacity, [numEvents] is their number and [getEventType(i)] the type
    of the [i]-th (as an [int]); where [size_t] has four bytes,
    [getEvent(i)] returns its payload. *)
Theorem tick_accumulates_events {F D : Type} (vt : Virtuals F D)
  (pf : Platform) (emits : GameState D -> F -> list AddCall)
  (h : Store D) (m : StateMachine) (dt : F) :
  (forall g d st, snd (snd (v_tick vt g d st)) = run pf st (emits g d)) ->
  let m' := snd (fst (tick vt h m dt)) in
  let events :=
    concat (map (fun c => emits (tc_self c) (tc_dt c)) (snd (tick vt h m dt))) in
  _stream m' = run pf (reset (_stream m)) events /\
  (within_capacity events ->
   numEvents m' = Z.of_nat (length events) /\
   forall i c, nth_error events i = Some c ->
     getEventType pf m' (Z.of_nat i) = to_int (call_type c) /\
     (data_model pf = ILP32 ->
      getEvent pf m' (Z.of_nat i) = (true, call_payload c))).
Proof.
  intros Hemit. unfold tick.
  destruct (tick_loop vt dt (_states m) 0%nat h (reset (_stream m)))
    as [[h1 st1] calls1] eqn:El.
  cbn [fst snd _stream]. 
  destruct (tick_loop_calls vt dt _ _ _ _ _ _ _ El) as (Hh & _ & _).
  pose proof (handed_on_run vt pf emits calls1 Hemit _ _ Hh) as Hst.
  split; [exact Hst|].
  intros Hcap. unfold numEvents, getEventType, getEvent. cbn [_stream].
  rewrite Hst. set (events := concat _) in *.
  pose proof (within_capacity_range _ Hcap) as Hr.
  assert (Hholds : holds pf (run pf (reset (_stream m)) events) events)
    by (apply holds_run; lia).
  split; [apply (holds_num pf _ _ Hholds); lia|].
  intros i c Hc. split.
  - exact (holds_getType pf _ _ i c Hholds Hr Hc).
  - intros Hdm. exact (holds_get_ilp32 pf _ _ i c Hdm Hholds Hr Hc).
Qed.

Lemma tick_accumulates_events_witness :
  (forall g d st, snd (snd (v_tick spy g d st))
                  = run ilp32 st [AddData 7 [Byte.x01; Byte.x02]]) /\
  _stream (snd (fst (tick spy (fst (activate spy spies intro_outro Intro))
                       intro_outro 16)))
  = run ilp32 (reset (_stream intro_outro))
      (concat (map (fun c : TickCall Z nat => [AddData 7 [Byte.x01; Byte.x02]])
                 (snd (tick spy (fst (activate spy spies intro_outro Intro))
                         intro_outro 16)))).
Proof.
  assert (H : forall g d st, snd (snd (v_tick spy g d st))
                = run ilp32 st [AddData 7 [Byte.x01; Byte.x02]])
    by (intros g d st; reflexivity).
  split; [exact H|].
  exact (proj1 (tick_accumulates_events spy ilp32
                  (fun _ _ => [AddData 7 [Byte.x01; Byte.x02]])
                  (fst (activate spy spies intro_outro Intro)) intro_outro 16 H)).
Defined.

Lemma first_occurrence (p : nat) (l : list nat) :
  In p l -> exists i, nth_error l i = Some p /\ ~ In p (firstn i l).
Proof.
  induction l as [|q rest IH]; intros Hin; [destruct Hin|].
  destruct (Nat.eq_dec q p) as [->|Hne].
  - exists 0%nat. split; [reflexivity|intros []].
  - destruct Hin as [Heq|Hin]; [contradiction|].
    destruct (IH Hin) as (i & Hi & Hf).
    exists (S i). split; [exact Hi|].
    cbn [firstn]. intros [Heq|Hin']; [contradiction|exact (Hf Hin')].
Qed.

(** * Further properties: states that reach other states *)

Lemma tick_loop_host_skips {F D : Type} (hv : Host F D) (dt : F) (p : nat)
  states :
  (forall q d hs st, q <> p -> fst (snd (host_tick hv q d hs st)) p = hs p) ->
  forall i0 h stream h' stream' calls,
  tick_loop_host hv dt states i0 h stream = (h', stream', calls) ->
  isActive (h p) = false \/ ~ In p states ->
  h' p = h p /\ ~ In p (map hc_state calls).
Proof.
  intros Hobj.
  induction states as [|q rest IH]; intros i0 h stream h' stream' calls Hl Hp;
    cbn [tick_loop_host] in Hl.
  - injection Hl as <- <- <-. split; [reflexivity|intros []].
  - destruct (isActive (h q)) eqn:Ha.
    + assert (Hne : q <> p).
      { intros ->. destruct Hp as [Hp|Hp]; [congruence|].
        apply Hp. left. reflexivity. }
      pose proof (Hobj q dt h stream Hne) as Hq.
      destruct (host_tick hv q dt h stream) as [ret [h1 st1]].
      cbn [fst snd] in Hq.
      destruct (tick_loop_host hv dt rest (S i0) h1 st1)
        as [[h2 st2] calls1] eqn:El.
      injection Hl as <- <- <-.
      assert (Hp1 : isActive (h1 p) = false \/ ~ In p rest).
      { rewrite Hq. destruct Hp as [Hp|Hp]; [left; exact Hp|].
        right. intros Hin. apply Hp. right. exact Hin. }
      destruct (IH _ _ _ _ _ _ El Hp1) as [H1 H2].
      split; [rewrite H1; exact Hq|].
      cbn [map hc_state]. intros [Heq|Hin]; [exact (Hne Heq)|exact (H2 Hin)].
    + apply (IH _ _ _ _ _ _ Hl).
      destruct Hp as [Hp|Hp]; [left; exact Hp|].
      right. intros Hin. apply Hp. right. exact Hin.
Qed.

Lemma tick_loop_host_first {F D : Type} (hv : Host F D) (dt : F) (p : nat)
  states :
  (forall q d hs st, q <> p -> fst (snd (host_tick hv q d hs st)) p = hs p) ->
  forall i0 h stream h' stream' calls k,
  tick_loop_host hv dt states i0 h stream = (h', stream', calls) ->
  nth_error states k = Some p ->
  ~ In p (firstn k states) ->
  (In (i0 + k)%nat (map hc_slot calls) <-> isActive (h p) = true).
Proof.
  intros Hobj.
  induction states as [|q rest IH];
    intros i0 h stream h' stream' calls k Hl Hn Hfresh;
    [destruct k; discriminate|].
  pose proof (tick_loop_host_calls hv dt _ _ _ _ _ _ _ Hl) as (_ & Hslots & _).
  cbn [tick_loop_host] in Hl.
  destruct k as [|k]; cbn in Hn.
  - injection Hn as ->. rewrite Nat.add_0_r.
    destruct (isActive (h p)) eqn:Ha.
    + destruct (host_tick hv p dt h stream) as [ret [h1 st1]].
      destruct (tick_loop_host hv dt rest (S i0) h1 st1) as [[h2 st2] calls1].
      injection Hl as <- <- <-. cbn [map hc_slot].
      split; [reflexivity|intros _; left; reflexivity].
    + split; [|discriminate]. intros Hin. exfalso.
      apply in_map_iff in Hin. destruct Hin as (c & Hc & Hin).
      destruct (tick_loop_host_calls hv dt _ _ _ _ _ _ _ Hl) as (_ & H2 & _).
      destruct (H2 c Hin) as (Hs & _). lia.
  - cbn [firstn] in Hfresh.
    assert (Hne : q <> p) by (intros ->; apply Hfresh; left; reflexivity).
    assert (Hfresh' : ~ In p (firstn k rest))
      by (intros Hin; apply Hfresh; right; exact Hin).
    replace (i0 + S k)%nat with (S i0 + k)%nat by lia.
    destruct (isActive (h q)).
    + pose proof (Hobj q dt h stream Hne) as Hq.
      destruct (host_tick hv q dt h stream) as [ret [h1 st1]].
      cbn [fst snd] in Hq.
      destruct (tick_loop_host hv dt rest (S i0) h1 st1)
        as [[h2 st2] calls1] eqn:El.
      injection Hl as <- <- <-.
      rewrite <- Hq, <- (IH _ _ _ _ _ _ k El Hn Hfresh').
      cbn [map hc_slot In].
      split; [intros [Heq|Hin]; [lia|exact Hin]|intros Hin; right; exact Hin].
    + exact (IH _ _ _ _ _ _ k Hl Hn Hfresh').
Qed.

(** X9.  If the tick of no other state changes the object of a state,
    then this state, when it is inactive as [tick] starts or is not
    registered, gets no tick call, at whatever positions it is registered,
    and its object is as before afterwards. *)
Theorem tick_skips_inactive {F D : Type} (hv : Host F D) (h : Store D)
  (m : StateMachine) (dt : F) (p : nat) :
  (forall q d hs st, q <> p -> fst (snd (host_tick hv q d hs st)) p = hs p) ->
  isActive (h p) = false \/ ~ In p (_states m) ->
  fst (fst (tick_host hv h m dt)) p = h p /\
  ~ In p (map hc_state (snd (tick_host hv h m dt))).
Proof.
  intros Hobj Hp. unfold tick_host.
  destruct (tick_loop_host hv dt (_states m) 0%nat h (reset (_stream m)))
    as [[h1 st1] calls1] eqn:El.
  cbn [fst snd]. exact (tick_loop_host_skips hv dt p _ Hobj _ _ _ _ _ _ El Hp).
Qed.

Lemma tick_skips_inactive_witness :
  (forall q d hs st, q <> 2%nat ->
     fst (snd (host_tick (confined spy) q d hs st)) 2%nat = hs 2%nat) /\
  (isActive (fst (activate_host (confined spy) spies intro_outro Intro) 2%nat)
   = false \/ ~ In 2%nat (_states intro_outro)) /\
  ~ In 2%nat (map hc_state
                (snd (tick_host (confined spy)
                        (fst (activate_host (confined spy) spies intro_outro
                                Intro)) intro_outro 16))).
Proof.
  assert (Hobj : forall q d hs st, q <> 2%nat ->
            fst (snd (host_tick (confined spy) q d hs st)) 2%nat = hs 2%nat).
  { intros q d hs st Hq. cbn. apply poke_other. congruence. }
  assert (Hp : isActive (fst (activate_host (confined spy) spies intro_outro
                                Intro) 2%nat) = false
               \/ ~ In 2%nat (_states intro_outro))
    by (left; reflexivity).
  split; [exact Hobj|]. split; [exact Hp|].
  exact (proj2 (tick_skips_inactive (confined spy) _ intro_outro 16 2%nat
                  Hobj Hp)).
Defined.

(** X12.  When [find(name)] returns a state whose object the tick of no
    other state changes: if the state's [activate] leaves it active, the
    [tick] after [activate(name)] calls it, and if its [deactivate] leaves
    it inactive, the [tick] after [deactivate(name)] does not call it. *)
Theorem activation_decides_next_tick {F D : Type} (hv : Host F D)
  (h : Store D) (m : StateMachine) (name : list byte) (dt : F) (p : nat) :
  find h m name = Some p ->
  (forall q d hs st, q <> p -> fst (snd (host_tick hv q d hs st)) p = hs p) ->
  (isActive (host_activate hv p h p) = true ->
   In p (map hc_state
           (snd (tick_host hv (fst (activate_host hv h m name)) m dt)))) /\
  (isActive (host_deactivate hv p h p) = false ->
   ~ In p (map hc_state
             (snd (tick_host hv (fst (deactivate_host hv h m name)) m dt)))).
Proof.
  intros Hf Hobj. unfold activate_host, deactivate_host. rewrite Hf.
  cbn [fst]. destruct (find_loop_some h _ _ _ Hf) as [Hin _].
  split; intros Hv; unfold tick_host.
  - destruct (tick_loop_host hv dt (_states m) 0%nat (host_activate hv p h)
                (reset (_stream m))) as [[h2 st2] calls] eqn:El.
    cbn [snd].
    destruct (first_occurrence p _ Hin) as (i & Hi & Hfresh).
    assert (Hslot : In i (map hc_slot calls))
      by (apply (tick_loop_host_first hv dt p _ Hobj _ _ _ _ _ _ i El Hi Hfresh);
          exact Hv).
    apply in_map_iff in Hslot. destruct Hslot as (c & Hc & Hcin).
    apply in_map_iff. exists c. split; [|exact Hcin].
    destruct (tick_loop_host_calls hv dt _ _ _ _ _ _ _ El) as (_ & H2 & _).
    destruct (H2 c Hcin) as (_ & Hn & _).
    rewrite Nat.sub_0_r, Hc, Hi in Hn. congruence.
  - destruct (tick_loop_host hv dt (_states m) 0%nat (host_deactivate hv p h)
                (reset (_stream m))) as [[h2 st2] calls] eqn:El.
    cbn [snd].
    apply (tick_loop_host_skips hv dt p _ Hobj _ _ _ _ _ _ El).
    left. exact Hv.
Qed.

Lemma activation_decides_next_tick_witness :
  find spies intro_outro Intro = Some 0%nat /\
  (forall q d hs st, q <> 0%nat ->
     fst (snd (host_tick meddler q d hs st)) 0%nat = hs 0%nat) /\
  In 0%nat (map hc_state
              (snd (tick_host meddler
                      (fst (activate_host meddler spies intro_outro Intro))
                      intro_outro 16))).
Proof.
  assert (H : find spies intro_outro Intro = Some 0%nat) by reflexivity.
  assert (Hobj : forall q d hs st, q <> 0%nat ->
            fst (snd (host_tick meddler q d hs st)) 0%nat = hs 0%nat).
  { intros q d hs st Hq. cbn [meddler host_tick fst snd].
    replace (q =? 0)%nat with false by (symmetry; apply Nat.eqb_neq; exact Hq).
    apply poke_other. congruence. }
  split; [exact H|]. split; [exact Hobj|].
  exact (proj1 (activation_decides_next_tick meddler spies intro_outro Intro 16
                  0%nat H Hobj) eq_refl).
Defined.

(** * Further properties: EventStream *)

Lemma do_call_outside pf s c a :
  a < _index s \/ _index s + record_bytes c <= a ->
  _data (do_call pf s c) a = _data s a.
Proof.
  intros H. rewrite do_call_data. unfold record_bytes, EVENT_HEADER_SIZE in *.
  rewrite !memcpy_to_outside; [reflexivity| |].
  - rewrite stored_header_length. lia.
  - lia.
Qed.

(** X14.  Add calls within capacity stay inside the arena: after a
    reset and the calls [cs], the cursor is the number of bytes they take,
    at most 4096, there are at most 341 records, and every byte before the
    arena or from the cursor on, so every byte outside the arena, is as it
    was before. *)
Theorem adds_within_capacity_stay_in_arena pf s cs :
  within_capacity cs ->
  _index (run pf (reset s) cs) = stream_bytes cs /\
  _index (run pf (reset s) cs) <= ARENA_SIZE /\
  num (run pf (reset s) cs) <= 341 /\
  forall a, a < 0 \/ stream_bytes cs <= a ->
    _data (run pf (reset s) cs) a = _data s a.
Proof.
  intros Hcap. unfold within_capacity, ARENA_SIZE in Hcap.
  assert (Hh : holds pf (run pf (reset s) cs) cs) by (apply holds_run; lia).
  split; [exact (holds_index _ _ _ Hh)|].
  split; [rewrite (holds_index _ _ _ Hh); exact Hcap|].
  split.
  - rewrite (holds_num pf _ cs Hh) by lia.
    pose proof (stream_bytes_length cs). unfold EVENT_HEADER_SIZE in *. lia.
  - clear Hh. revert Hcap. induction cs as [|c cs IH] using rev_ind;
      intros Hcap a Ha.
    + reflexivity.
    + pose proof (stream_bytes_prefix cs c) as Hp.
      assert (Hh : holds pf (run pf (reset s) cs) cs) by (apply holds_run; lia).
      rewrite stream_bytes_app, stream_bytes_cons in Ha, Hcap.
      cbn [stream_bytes fold_right] in Ha, Hcap.
      pose proof (stream_bytes_nonneg cs). pose proof (record_bytes_pos c).
      unfold EVENT_HEADER_SIZE in *.
      rewrite run_snoc, do_call_outside
        by (rewrite (holds_index _ _ _ Hh); lia).
      apply IH; lia.
Qed.

Lemma adds_within_capacity_stay_in_arena_witness :
  let cs := [Add 3; AddData 7 [Byte.x01; Byte.x02]] in
  within_capacity cs /\
  _index (run lp64 (reset (new_EventStream zeroed)) cs) = stream_bytes cs.
Proof.
  intros cs.
  assert (H : within_capacity cs) by (vm_compute; discriminate).
  split; [exact H|].
  exact (proj1 (adds_within_capacity_stay_in_arena lp64 (new_EventStream zeroed) cs H)).
Defined.

Lemma stream_bytes_firstn_S cs i c :
  nth_error cs i = Some c ->
  stream_bytes (firstn (S i) cs) = stream_bytes (firstn i cs) + record_bytes c.
Proof.
  revert i. induction cs as [|c' cs IH]; intros [|i] Hc; cbn in Hc;
    try discriminate.
  - injection Hc as ->. cbn [firstn stream_bytes fold_right]. lia.
  - change (firstn (S (S i)) (c' :: cs)) with (c' :: firstn (S i) cs).
    change (firstn (S i) (c' :: cs)) with (c' :: firstn i cs).
    rewrite !stream_bytes_cons, (IH i Hc). lia.
Qed.

(** X15.  How the records lie in the arena, under either data model.
    After a reset and the calls [cs] within capacity, the [i]-th entry of
    [_mappings] is the number of bytes of the records before, so the
    records follow one another without a gap; at that offset are the
    sequence id [i], the type and the low 32 bits of the payload length,
    four bytes each, and from byte 12 on the payload. *)
Theorem records_back_to_back pf s cs i c :
  within_capacity cs ->
  nth_error cs i = Some c ->
  let s' := run pf (reset s) cs in
  let off := stream_bytes (firstn i cs) in
  nth_error (_mappings s') i = Some off /\
  (forall c', nth_error cs (S i) = Some c' ->
     nth_error (_mappings s') (S i) = Some (off + record_bytes c)) /\
  off + record_bytes c <= _index s' /\
  header_id (_data s') off = Z.of_nat i /\
  header_type (_data s') off = to_uint32 (call_type c) /\
  le_combine (memcpy_from (_data s') (off + 8) 4)
    = Z.of_nat (length (call_payload c)) /\
  memcpy_from (_data s') (off + EVENT_HEADER_SIZE)
    (Z.of_nat (length (call_payload c))) = call_payload c.
Proof.
  intros Hcap Hc s' off. apply within_capacity_range in Hcap.
  assert (Hh : holds pf s' cs) by (apply holds_run; lia).
  destruct (holds_lookup pf s' cs i c Hh Hcap Hc) as [_ Hr].
  pose proof (stream_bytes_nth cs i c Hc) as Hb.
  pose proof (stream_bytes_nonneg (firstn i cs)) as Hnn.
  pose proof (stream_bytes_length cs) as Hl.
  assert (Hi : (i < length cs)%nat) by (apply nth_error_Some; congruence).
  destruct (record_at_fields _ _ _ _ _ Hr) as (_ & _ & Hsz).
  subst off.
  split; [rewrite (holds_mappings _ _ _ Hh), (offsets_nth 0 cs i c Hc);
          f_equal; lia|].
  split.
  { intros c' Hc'.
    rewrite (holds_mappings _ _ _ Hh), (offsets_nth 0 cs (S i) c' Hc').
    rewrite (stream_bytes_firstn_S cs i c Hc). f_equal; lia. }
  split; [rewrite (holds_index _ _ _ Hh); exact Hb|].
  split; [rewrite (record_at_id _ _ _ _ _ Hr); apply to_uint32_small;
          unfold EVENT_HEADER_SIZE in *; lia|].
  split; [exact (record_at_type _ _ _ _ _ Hr)|].
  split; [|apply Hr].
  rewrite Hsz, le_combine_split_4. apply to_uint32_small.
  unfold record_bytes, EVENT_HEADER_SIZE in *. lia.
Qed.

Lemma records_back_to_back_witness :
  let cs := [Add 3; AddData 7 [Byte.x01; Byte.x02]] in
  within_capacity cs /\
  nth_error cs 1 = Some (AddData 7 [Byte.x01; Byte.x02]) /\
  nth_error (_mappings (run lp64 (reset (new_EventStream zeroed)) cs)) 1
  = Some (stream_bytes (firstn 1 cs)).
Proof.
  intros cs.
  assert (H : within_capacity cs) by (vm_compute; discriminate).
  assert (Hc : nth_error cs 1 = Some (AddData 7 [Byte.x01; Byte.x02]))
    by reflexivity.
  split; [exact H|]. split; [exact Hc|].
  exact (proj1 (records_back_to_back lp64 (new_EventStream zeroed) cs 1%nat
                  _ H Hc)).
Defined.

(** X16.  Reading back where [size_t] has four bytes: after a reset and
    calls within capacity, every index below [num()] belongs to one of the
    calls, in order; [get] returns [true] and the payload of that call and
    [getType] its type (as an [int]). *)
Theorem read_back_ilp32 pf s cs index :
  data_model pf = ILP32 ->
  within_capacity cs ->
  0 <= index < num (run pf (reset s) cs) ->
  exists c,
    nth_error cs (Z.to_nat index) = Some c /\
    get pf (run pf (reset s) cs) index = (true, call_payload c) /\
    getType pf (run pf (reset s) cs) index = to_int (call_type c).
Proof.
  intros Hdm Hcap Hi. apply within_capacity_range in Hcap.
  assert (Hh : holds pf (run pf (reset s) cs) cs) by (apply holds_run; lia).
  rewrite (holds_num pf _ cs Hh) in Hi by lia.
  destruct (nth_error cs (Z.to_nat index)) as [c|] eqn:Hc;
    [|apply nth_error_None in Hc; lia].
  exists c. split; [reflexivity|].
  rewrite <- (Z2Nat.id index) at 1 2 by lia. split.
  - exact (holds_get_ilp32 pf _ cs _ c Hdm Hh Hcap Hc).
  - exact (holds_getType pf _ cs _ c Hh Hcap Hc).
Qed.

Lemma read_back_ilp32_witness :
  let cs := [Add 3; AddData 7 [Byte.x01; Byte.x02]] in
  data_model ilp32 = ILP32 /\ within_capacity cs /\
  0 <= 1 < num (run ilp32 (reset (new_EventStream zeroed)) cs) /\
  exists c,
    nth_error cs (Z.to_nat 1) = Some c /\
    get ilp32 (run ilp32 (reset (new_EventStream zeroed)) cs) 1
      = (true, call_payload c) /\
    getType ilp32 (run ilp32 (reset (new_EventStream zeroed)) cs) 1
      = to_int (call_type c).
Proof.
  intros cs.
  assert (H : within_capacity cs) by (vm_compute; discriminate).
  assert (Hi : 0 <= 1 < num (run ilp32 (reset (new_EventStream zeroed)) cs))
    by (vm_compute; split; [discriminate|reflexivity]).
  split; [reflexivity|]. split; [exact H|]. split; [exact Hi|].
  exact (read_back_ilp32 ilp32 (new_EventStream zeroed) cs 1 eq_refl H Hi).
Defined.

(** X17.  An add call within capacity leaves the earlier records as
    they were: the bytes before the cursor are untouched, [getType(i)] is
    the same for every earlier index under either data model, and where
    [size_t] has four bytes [get(i)] is the same too. *)
Theorem add_keeps_earlier_records pf s cs c i :
  within_capacity (cs ++ [c]) ->
  (i < length cs)%nat ->
  (forall a, a < _index (run pf (reset s) cs) ->
     _data (do_call pf (run pf (reset s) cs) c) a
     = _data (run pf (reset s) cs) a) /\
  getType pf (do_call pf (run pf (reset s) cs) c) (Z.of_nat i)
  = getType pf (run pf (reset s) cs) (Z.of_nat i) /\
  (data_model pf = ILP32 ->
   get pf (do_call pf (run pf (reset s) cs) c) (Z.of_nat i)
   = get pf (run pf (reset s) cs) (Z.of_nat i)).
Proof.
  intros Hcap Hi. split; [|split].
  - intros a Ha. apply do_call_frame. exact Ha.
  - apply add_keeps_getType; assumption.
  - intros Hdm. apply add_keeps_get_ilp32; assumption.
Qed.

Lemma add_keeps_earlier_records_witness :
  let cs := [AddData 7 [Byte.x01; Byte.x02]] in
  within_capacity (cs ++ [Add 8]) /\ (0 < length cs)%nat /\
  getType lp64 (do_call lp64 (run lp64 (reset (new_EventStream zeroed)) cs)
                  (Add 8)) (Z.of_nat 0)
  = getType lp64 (run lp64 (reset (new_EventStream zeroed)) cs) (Z.of_nat 0).
Proof.
  intros cs.
  assert (H : within_capacity (cs ++ [Add 8])) by (vm_compute; discriminate).
  assert (Hi : (0 < length cs)%nat) by (cbn; lia).
  split; [exact H|]. split; [exact Hi|].
  exact (proj1 (proj2 (add_keeps_earlier_records lp64 (new_EventStream zeroed)
                         cs (Add 8) 0%nat H Hi))).
Defined.

(** X18.  After a reset and add calls within capacity, [containsType(t)]
    is true exactly when one of the calls was made with the type [t] (as a
    [uint32_t]). *)
Theorem containsType_after_adds pf s cs t :
  within_capacity cs ->
  (containsType pf (run pf (reset s) cs) t = true <->
   exists c, In c cs /\ to_uint32 (call_type c) = t).
Proof.
  intros Hcap. apply within_capacity_range in Hcap.
  assert (Hh : holds pf (run pf (reset s) cs) cs) by (apply holds_run; lia).
  pose proof (stream_bytes_length cs) as Hl. unfold EVENT_HEADER_SIZE in Hl.
  unfold containsType. rewrite containsType_loop_true.
  rewrite (holds_mappings _ _ _ Hh), offsets_length.
  assert (Heq : forall k c, nth_error cs k = Some c ->
            (int_eq_uint32
               (getType pf (run pf (reset s) cs) (to_uint32 (0 + Z.of_nat k))) t
             = true <-> to_uint32 (call_type c) = t)).
  { intros k c Hc.
    assert (Hk : (k < length cs)%nat) by (apply nth_error_Some; congruence).
    rewrite Z.add_0_l, to_uint32_small by lia.
    rewrite (holds_getType pf _ cs k c Hh Hcap Hc).
    unfold int_eq_uint32. rewrite to_uint32_to_int. apply Z.eqb_eq. }
  split.
  - intros (k & Hk & H).
    destruct (nth_error cs k) as [c|] eqn:Hc;
      [|apply nth_error_None in Hc; lia].
    exists c. split; [exact (nth_error_In _ _ Hc)|].
    apply (Heq k c Hc). exact H.
  - intros (c & Hin & H). destruct (In_nth_error _ _ Hin) as [k Hc].
    exists k. split; [apply nth_error_Some; congruence|].
    apply (Heq k c Hc). exact H.
Qed.

Lemma containsType_after_adds_witness :
  let cs := [Add 3; AddData 4294967295 [Byte.x01]] in
  within_capacity cs /\
  (containsType lp64 (run lp64 (reset (new_EventStream zeroed)) cs) 4294967295
   = true <-> exists c, In c cs /\ to_uint32 (call_type c) = 4294967295).
Proof.
  intros cs.
  assert (H : within_capacity cs) by (vm_compute; discriminate).
  split; [exact H|].
  exact (containsType_after_adds lp64 (new_EventStream zeroed) cs 4294967295 H).
Defined.

Lemma to_uint32_to_size_t pf z : to_uint32 (to_size_t pf z) = to_uint32 z.
Proof.
  unfold to_uint32, to_size_t. destruct (data_model pf); cbn [sizeof_size_t].
  - change (8 * Z.of_nat 4) with 32. apply Z.mod_mod. lia.
  - change (8 * Z.of_nat 8) with 64.
    apply Z.mod_mod_divide. exists (2 ^ 32). reflexivity.
Qed.

(** X19.  [add(type)] does what [add(type, p, 0)] does: the two leave
    the same offsets, the same cursor and the same bytes, so every index
    reads the same from both. *)
Theorem add_is_add_without_payload pf s ty :
  _mappings (add pf s ty) = _mappings (add_data pf s ty []) /\
  _index (add pf s ty) = _index (add_data pf s ty []) /\
  (forall a, _data (add pf s ty) a = _data (add_data pf s ty []) a) /\
  forall index,
    getType pf (add pf s ty) index = getType pf (add_data pf s ty []) index /\
    get pf (add pf s ty) index = get pf (add_data pf s ty []) index.
Proof.
  assert (Hd : forall a, _data (add pf s ty) a = _data (add_data pf s ty []) a).
  { intros a. cbn [add add_data addHeader _data _index length].
    rewrite (memcpy_to_outside _ _ []) by (cbn; lia). reflexivity. }
  assert (Hm : _mappings (add pf s ty) = _mappings (add_data pf s ty []))
    by reflexivity.
  split; [exact Hm|]. split; [|split; [exact Hd|]].
  - cbn [add add_data addHeader _index length].
    rewrite to_uint32_to_size_t.
    rewrite (to_size_t_small pf (EVENT_HEADER_SIZE + Z.of_nat 0))
      by (unfold EVENT_HEADER_SIZE; lia).
    f_equal; lia.
  - intros index.
    assert (Hs : forall data,
              header_size pf (_data (add pf s ty)) data
              = header_size pf (_data (add_data pf s ty [])) data).
    { intros data. unfold header_size. f_equal.
      apply memcpy_from_ext. intros x _. apply Hd. }
    unfold getType, get, header_type. rewrite Hm. split.
    + do 2 f_equal. apply memcpy_from_ext. intros x _. apply Hd.
    + rewrite Hs. f_equal. apply memcpy_from_ext. intros x _. apply Hd.
Qed.

(** X20.  Where [size_t] has eight bytes, [get(i)] copies the payload
    length plus 2^32 times the value of the four bytes at offset 12 of the
    record, and so returns the payload exactly when those four bytes, the
    first of a longer payload or what follows a shorter one, are zero. *)
Theorem get_lp64_returns_payload_iff pf s cs i c :
  data_model pf = LP64 ->
  within_capacity cs ->
  nth_error cs i = Some c ->
  let s' := run pf (reset s) cs in
  let off := stream_bytes (firstn i cs) in
  length (snd (get pf s' (Z.of_nat i))) =
    Z.to_nat (Z.of_nat (length (call_payload c))
              + 2 ^ 32 * le_combine
                           (memcpy_from (_data s') (off + EVENT_HEADER_SIZE) 4)) /\
  (get pf s' (Z.of_nat i) = (true, call_payload c) <->
   memcpy_from (_data s') (off + EVENT_HEADER_SIZE) 4
   = [Byte.x00; Byte.x00; Byte.x00; Byte.x00]).
Proof.
  intros Hdm Hcap Hc s' off.
  split; [exact (get_lp64_length pf s cs i c Hdm Hcap Hc)|].
  split; [exact (get_lp64_roundtrip_only_if pf s cs i c Hdm Hcap Hc)|].
  intros Hz. apply within_capacity_range in Hcap.
  assert (Hh : holds pf s' cs) by (apply holds_run; lia).
  destruct (holds_lookup pf s' cs i c Hh Hcap Hc) as [Hl Hr].
  assert (Hlen : Z.of_nat (length (call_payload c)) < 2 ^ 32).
  { pose proof (stream_bytes_nth cs i c Hc).
    pose proof (stream_bytes_nonneg (firstn i cs)).
    unfold record_bytes, EVENT_HEADER_SIZE in *. lia. }
  subst off. unfold get. rewrite Hl.
  rewrite (record_at_size_lp64 pf _ _ _ _ Hdm Hlen Hr).
  rewrite Hz. change (le_combine [Byte.x00; Byte.x00; Byte.x00; Byte.x00]) with 0.
  rewrite Z.mul_0_r, Z.add_0_r. f_equal. apply Hr.
Qed.

Lemma get_lp64_returns_payload_iff_witness :
  let p := [Byte.x00; Byte.x00; Byte.x00; Byte.x00; Byte.x05] in
  let cs := [AddData 7 p] in
  data_model lp64 = LP64 /\ within_capacity cs /\
  nth_error cs 0 = Some (AddData 7 p) /\
  get lp64 (run lp64 (reset (new_EventStream zeroed)) cs) (Z.of_nat 0)
  = (true, p).
Proof.
  intros p cs.
  assert (H : within_capacity cs) by (vm_compute; discriminate).
  assert (Hc : nth_error cs 0 = Some (AddData 7 p)) by reflexivity.
  split; [reflexivity|]. split; [exact H|]. split; [exact Hc|].
  apply (proj2 (get_lp64_returns_payload_iff lp64 (new_EventStream zeroed) cs
                  0%nat (AddData 7 p) eq_refl H Hc)).
  vm_compute. reflexivity.
Defined.
